(** * Letterboxd Elo ranker: a shallow embedding of [src/MovieRanker.jsx]

    The development follows the source file top-down: JavaScript Numbers
    and the [Math] helpers, strings and [parseFloat], the rating engine
    ([ratingToInitialElo], [expectedScore], [updateElo]), the row-to-item
    conversion and the import merger ([importRatingsCsv]), the pair
    selector ([pickPair]), comparison resolution ([handleChoice]) and the
    store they act on.  The theorems come after all definitions.

    Modelling conventions.
    - A JavaScript Number is an IEEE-754 binary64 value: Rocq's primitive
      [float], with the arithmetic of [PrimFloat].
    - A JavaScript string is a [string] of 8-bit code units (the Latin-1
      range of UTF-16 code units).
    - The counters [played], [wins] and [losses] only ever start at [0] and
      grow by [1]; they are modelled by [nat] (exact below 2^53).
    - React state is an explicit record [Store]; an event handler is a
      function from stores to stores.  [Math.random] and the clock are
      inputs. *)

From Stdlib Require Import ZArith Ascii String.
From Stdlib Require Floats.PrimFloat Floats.FloatOps Floats.SpecFloat.
From Stdlib Require Floats.FloatAxioms.
From stdpp Require Import gmap strings list pretty sorting.

Import PrimFloat SpecFloat.

Local Open Scope Z_scope.

(** ** JavaScript Numbers *)

Module JsNumber.

Abbreviation number := PrimFloat.float.

Abbreviation prec := FloatOps.prec.
Abbreviation emax := FloatOps.emax.

(** The Number nearest to an integer (round to nearest, ties to even). *)
Definition of_Z (z : Z) : number :=
  FloatOps.SF2Prim (binary_normalize prec emax z 0 false).

(** The Number nearest to the rational [n / d], for [d > 0]. *)
Definition of_ratio (n : Z) (d : positive) : number :=
  match n with
  | Z0 => zero
  | Zpos p =>
      FloatOps.SF2Prim
        (SFdiv prec emax (S754_finite false p 0) (S754_finite false d 0))
  | Zneg p =>
      FloatOps.SF2Prim
        (SFdiv prec emax (S754_finite true p 0) (S754_finite false d 0))
  end.

(** The integer a Number denotes, when it is finite and integral
    ([-0] denotes [0]). *)
Definition to_Z (x : number) : option Z :=
  match FloatOps.Prim2SF x with
  | S754_zero _ => Some 0
  | S754_finite s m e =>
      let n := cond_Zopp s (Zpos m) in
      if 0 <=? e then Some (n * 2 ^ e)
      else if n mod 2 ^ (- e) =? 0 then Some (n / 2 ^ (- e)) else None
  | _ => None
  end.

(** [!x] for a Number: [true] exactly for [+0], [-0] and [NaN]. *)
Definition falsy (x : number) : bool := is_zero x || is_nan x.

(** [Math.floor]: non-finite and zero arguments are returned as they
    are; otherwise the greatest integer below the exact value. *)
Definition Math_floor (x : number) : number :=
  match FloatOps.Prim2SF x with
  | S754_finite s m e =>
      if 0 <=? e then x
      else
        let n := cond_Zopp s (Zpos m) in
        of_Z (n / 2 ^ (- e))
  | _ => x
  end.

(** [Math.round]: non-finite and integral arguments are returned as they
    are; otherwise the integer nearest to the exact value, a tie going
    towards +infinity; a result of zero keeps the sign of the argument. *)
Definition Math_round (x : number) : number :=
  match FloatOps.Prim2SF x with
  | S754_finite s m e =>
      if 0 <=? e then x
      else
        let n := cond_Zopp s (Zpos m) in
        let d := 2 ^ (- e) in
        let z := (2 * n + d) / (2 * d) in
        if z =? 0 then (if s then neg_zero else zero) else of_Z z
  | _ => x
  end.

(** [Math.abs]. *)
Definition Math_abs (x : number) : number := abs x.

(** [Math.pow(base, exponent)].  ECMAScript fixes the result in the
    special cases below and leaves every other case to an
    "implementation-approximated" value, which the host engine supplies:
    that part is the parameter [pow_approx]. *)
Definition Math_pow (pow_approx : number -> number -> number)
    (base exponent : number) : number :=
  if is_nan exponent then nan
  else if is_zero exponent then one
  else if is_nan base then nan
  else pow_approx base exponent.

End JsNumber.

Import JsNumber.

(** ** The order of Numbers *)

(** The position of a number that is not [NaN] in the order of Numbers:
    the sign class first, then exponent and mantissa, both negated for
    negative numbers. *)
Definition rank (x : spec_float) : Z * (Z * Z) :=
  match x with
  | S754_zero _ => (0, (0, 0))
  | S754_infinity s => (if s then -2 else 2, (0, 0))
  | S754_nan => (0, (0, 0))
  | S754_finite s m e => if s then (-1, (- e, - Zpos m)) else (1, (e, Zpos m))
  end.

(** The lexicographic order of ranks. *)
Definition rank_lt (t u : Z * (Z * Z)) : Prop :=
  fst t < fst u
  \/ (fst t = fst u
      /\ (fst (snd t) < fst (snd u)
          \/ (fst (snd t) = fst (snd u) /\ snd (snd t) < snd (snd u)))).

(** ** JavaScript strings *)

Module JsString.

Local Open Scope string_scope.

(** ECMAScript WhiteSpace and LineTerminator code units below 256:
    TAB, LF, VT, FF, CR, SPACE and NO-BREAK SPACE. *)
Definition is_ws (c : ascii) : bool :=
  let n := N_of_ascii c in
  ((9 <=? n) && (n <=? 13) || (n =? 32) || (n =? 160))%N.

(** [s.trimStart()]. *)
Fixpoint trimStart (s : string) : string :=
  match s with
  | String c r => if is_ws c then trimStart r else s
  | EmptyString => EmptyString
  end.

(** [s.trimEnd()]. *)
Fixpoint trimEnd (s : string) : string :=
  match s with
  | String c r =>
      match trimEnd r with
      | EmptyString => if is_ws c then EmptyString else String c EmptyString
      | r' => String c r'
      end
  | EmptyString => EmptyString
  end.

(** [s.trim()]. *)
Definition trim (s : string) : string := trimEnd (trimStart s).

Definition digit_of (c : ascii) : option Z :=
  let n := N_of_ascii c in
  if ((48 <=? n) && (n <=? 57))%N then Some (Z.of_N n - 48) else None.

(** Reads the longest run of decimal digits at the head of [s]: the
    value accumulated onto [acc], the number of digits, and the rest. *)
Fixpoint read_digits (s : string) (acc : Z) : Z * nat * string :=
  match s with
  | String c r =>
      match digit_of c with
      | Some d =>
          let '(v, n, rest) := read_digits r (10 * acc + d) in (v, S n, rest)
      | None => (acc, 0%nat, s)
      end
  | EmptyString => (acc, 0%nat, s)
  end.

(** The optional sign in front of a literal. *)
Definition read_sign (s : string) : bool * string :=
  match s with
  | String "-" r => (true, r)
  | String "+" r => (false, r)
  | _ => (false, s)
  end.

(** The ExponentPart of a StrDecimalLiteral, when one is present: an
    [e] or [E], an optional sign and at least one digit. *)
Definition read_exponent (s : string) : Z :=
  match s with
  | String c r =>
      if (Ascii.eqb c "e" || Ascii.eqb c "E")%bool then
        let '(neg, r1) := read_sign r in
        let '(v, n, _) := read_digits r1 0 in
        match n with
        | O => 0
        | S _ => if neg then - v else v
        end
      else 0
  | EmptyString => 0
  end.

(** The Number value of the decimal [(-1)^neg * m * 10^e10]. *)
Definition decimal_value (neg : bool) (m e10 : Z) : number :=
  if (m =? 0)%Z then (if neg then neg_zero else zero)
  else if (0 <=? e10)%Z then of_Z (cond_Zopp neg (m * 10 ^ e10))
  else of_ratio (cond_Zopp neg m) (Z.to_pos (10 ^ (- e10))).

(** [parseFloat(s)] for a string: leading white space is skipped, the
    longest prefix that is a StrDecimalLiteral is converted, and [NaN]
    is returned when there is none. *)
Definition parseFloat (s : string) : number :=
  let '(neg, s1) := read_sign (trimStart s) in
  if String.prefix "Infinity" s1 then
    (if neg then neg_infinity else infinity)
  else
    let '(ip, ni, s2) := read_digits s1 0 in
    let '(mant, nf, s3) :=
      match s2 with
      | String "." r => read_digits r ip
      | _ => (ip, 0%nat, s2)
      end in
    match (ni + nf)%nat with
    | O => nan
    | S _ => decimal_value neg mant (read_exponent s3 - Z.of_nat nf)
    end.

End JsString.

Import JsString.

Local Open Scope string_scope.

(** ** Rating engine *)

(** [ratingToInitialElo(rating)].  The argument is [null] ([None]) or a
    Number.  [!rating] holds for [null], for both zeros and for [NaN];
    [parseFloat] applied to a Number that passed the guard gives the
    Number back (its decimal string denotes it). *)
Definition ratingToInitialElo (rating : option number) : number :=
  match rating with
  | None => 1200%float
  | Some x =>
      if falsy x || is_nan x then 1200%float
      else
        let r := x in
        Math_round (1200 + (r - 2.5) * 200)%float
  end.

Section RatingEngine.

(** The host engine's general case of [Math.pow]. *)
Variable pow_approx : number -> number -> number.

Local Open Scope float_scope.

Definition expectedScore (eloA eloB : number) : number :=
  1 / (1 + Math_pow pow_approx 10 ((eloB - eloA) / 400)).

(** [updateElo(eloA, eloB, scoreA, k = 32)]: an omitted [k] is [None]. *)
Definition updateElo (eloA eloB scoreA : number) (k : option number)
    : number * number :=
  let k := default 32 k in
  let expA := expectedScore eloA eloB in
  let expB := 1 - expA in
  let newA := eloA + k * (scoreA - expA) in
  let newB := eloB + k * ((1 - scoreA) - expB) in
  (Math_round newA, Math_round newB).

End RatingEngine.

(** ** Data model *)

Record Item := {
  id : string;
  title : string;
  year : string;
  rating : option number;
  elo : number;
  played : nat;
  wins : nat;
  losses : nat
}.

Record HistoryEntry := {
  time : string;
  winner : string;
  loser : string;
  prevA : number;
  prevB : number;
  newA : number;
  newB : number
}.

(** The component state: [useState] cells of [App].  [left_] and [right_]
    are the cells [left] and [right]. *)
Record Store := {
  movies : list Item;
  history : list HistoryEntry;
  left_ : option Item;
  right_ : option Item;
  message : string
}.

(** ** Rows of the parsed CSV *)

(** A row object of [results.data]: its fields in [Object.keys] order. *)
Definition Row := list (string * string).

(** [k in row]. *)
Definition row_has (k : string) (r : Row) : bool :=
  existsb (fun kv => String.eqb (fst kv) k) r.

(** [row[k]]: [None] is [undefined]. *)
Definition row_get (k : string) (r : Row) : option string :=
  snd <$> List.find (fun kv => String.eqb (fst kv) k) r.

(** Truthiness of a string-or-undefined value. *)
Definition truthy (v : option string) : bool :=
  match v with
  | Some s => negb (String.eqb s "")
  | None => false
  end.

(** [v || w] with both sides string-or-undefined. *)
Definition or_else (v w : option string) : option string :=
  if truthy v then v else w.

(** [v || d] with a string on the right. *)
Definition or_string (v : option string) (d : string) : string :=
  match v with
  | Some s => if String.eqb s "" then d else s
  | None => d
  end.

(** [mapKey]: [keys.find((k) => k in row) || null]. *)
Definition mapKey (keys : list string) (row : Row) : option string :=
  match List.find (fun k => row_has k row) keys with
  | Some k => if String.eqb k "" then None else Some k
  | None => None
  end.

Definition titleKeys : list string := ["Title"; "title"; "Film"; "Name"].
Definition ratingKeys : list string :=
  ["Rating"; "rating"; "Your Rating"; "your_rating"].
Definition yearKeys : list string := ["Year"; "year"; "Release Year"].

(** [key && r[key]] for a key that may be [null]. *)
Definition guarded_get (key : option string) (r : Row) : option string :=
  match key with
  | Some k => row_get k r
  | None => None
  end.

(** [r[key]] for a key that may be [null]: the property named ["null"]. *)
Definition unguarded_get (key : option string) (r : Row) : option string :=
  row_get (default "null" key) r.

(** [r[Object.keys(r)[0]]]. *)
Definition first_field (r : Row) : option string :=
  match r with
  | (k, _) :: _ => row_get k r
  | [] => None
  end.

Section ParseRow.

Variables tKey rKey yKey : option string.

Definition row_title (r : Row) : string :=
  or_string (or_else (guarded_get tKey r) (first_field r)) "Unknown".

Definition row_year (r : Row) : string :=
  or_string (guarded_get yKey r) "".

Definition row_rawRating (r : Row) : string :=
  or_string
    (or_else (or_else (unguarded_get rKey r) (row_get "Rating" r))
       (row_get "rating" r))
    "".

Definition normalizeRating (rawRating : string) : option number :=
  if String.eqb rawRating "" then None else Some (parseFloat rawRating).

(** The callback of [rows.map] in [importRatingsCsv]. *)
Definition parseRow (r : Row) : Item :=
  let title := row_title r in
  let year := row_year r in
  let rawRating := row_rawRating r in
  let normalizedRating := normalizeRating rawRating in
  let id := trim (title ++ "|" ++ year) in
  {| id := id;
     title := trim title;
     year := if String.eqb year "" then year else trim year;
     rating := normalizedRating;
     elo := ratingToInitialElo normalizedRating;
     played := 0;
     wins := 0;
     losses := 0 |}.

End ParseRow.

(** [parsed]: the keys are detected on the first row only. *)
Definition parseRows (rows : list Row) : list Item :=
  let row0 := default [] (head rows) in
  let tKey := mapKey titleKeys row0 in
  let rKey := mapKey ratingKeys row0 in
  let yKey := mapKey yearKeys row0 in
  parseRow tKey rKey yKey <$> rows.

(** ** Arrays *)

(** [arr[x]] for a Number [x]: an element when [x] is an integer within
    bounds ([-0] names index 0), [undefined] otherwise. *)
Definition array_at {A} (arr : list A) (x : number) : option A :=
  match to_Z x with
  | Some z => if (0 <=? z)%Z then arr !! Z.to_nat z else None
  | None => None
  end.

(** [arr.length] as a Number. *)
Definition array_length {A} (arr : list A) : number :=
  of_Z (Z.of_nat (length arr)).

Section Sort.

Context {A : Type}.
(** The comparison function handed to [sort]. *)
Variable comparefn : A -> A -> number.

(** [x] has to be placed after [y]: the comparison is positive (a [NaN]
    counts as zero). *)
Definition sorts_after (x y : A) : bool := (0 <? comparefn x y)%float.

(** [x] has to be placed before [y]: the comparison is negative. *)
Definition sorts_before (x y : A) : bool := (comparefn x y <? 0)%float.

Fixpoint sort_insert (x : A) (l : list A) : list A :=
  match l with
  | [] => [x]
  | y :: l' => if sorts_after x y then y :: sort_insert x l' else x :: l
  end.

(** [arr.sort(comparefn)]: a stable sort; elements that compare equal
    keep their order.  ECMAScript fixes the result of [sort] only for a
    consistent comparator ([consistent_on] below), and there this
    insertion sort computes it: the sorted permutation in which elements
    that compare equal keep their order.  With an inconsistent comparator,
    such as differences that are NaN next to ordered ones, the order is
    left to the engine; this definition is then one admissible order, and
    only membership and permutation facts hold of every engine. *)
Fixpoint array_sort (l : list A) : list A :=
  match l with
  | [] => []
  | x :: l' => sort_insert x (array_sort l')
  end.

End Sort.

(** ** Pair selector *)

(** The random source: the successive results of [Math.random()]. *)
Definition Random := nat -> number.

Definition advance (n : nat) (rnd : Random) : Random := fun i => rnd (n + i)%nat.

(** An entry of [picks]: [[a, b, Math.abs(a.elo - b.elo)]]. *)
Definition Pick : Type := Item * Item * number.

Definition pick_compare (x y : Pick) : number := (snd x - snd y)%float.

Definition sampleSize (movies : list Item) : nat :=
  Nat.min 200 (length movies * 2).

(** One iteration of the sampling loop, given its two random numbers:
    the entry pushed onto [picks], or [None] when the draw is skipped. *)
Definition draw (movies : list Item) (u v : number) : option Pick :=
  let a := array_at movies (Math_floor (u * array_length movies)%float) in
  let b := array_at movies (Math_floor (v * array_length movies)%float) in
  match a, b with
  | Some a, Some b =>
      if decide (id a = id b) then None
      else Some (a, b, Math_abs (elo a - elo b)%float)
  | _, _ => None
  end.

(** Iteration [i] of the loop: it consumes the random numbers [2 i] and
    [2 i + 1]. *)
Definition nth_draw (movies : list Item) (rnd : Random) (i : nat) : option Pick :=
  draw movies (rnd (2 * i)%nat) (rnd (2 * i + 1)%nat).

(** [picks] after the loop: the retained draws, in draw order. *)
Definition collect_picks (movies : list Item) (rnd : Random) : list Pick :=
  omap (nth_draw movies rnd) (seq 0 (sampleSize movies)).

(** [pickPair()]: the new values of [left] and [right]; [None] stands for
    both being set to [null]. *)
Definition pickPair (movies : list Item) (rnd : Random)
    : option (Item * Item) :=
  if (length movies <? 2)%nat then None
  else
    let picks := collect_picks movies rnd in
    match picks with
    | [] =>
        match movies !! 0%nat, movies !! 1%nat with
        | Some a, Some b => Some (a, b)
        | _, _ => None
        end
    | _ :: _ =>
        match array_sort pick_compare picks with
        | best :: _ => Some (fst best)
        | [] => None
        end
    end.

(** The number of random numbers one call of [pickPair] consumes. *)
Definition pickPair_draws (movies : list Item) : nat :=
  if (length movies <? 2)%nat then 0%nat else (2 * sampleSize movies)%nat.

(** ** Store transitions *)

Definition set_pair (p : option (Item * Item)) (s : Store) : Store :=
  {| movies := movies s;
     history := history s;
     left_ := fst <$> p;
     right_ := snd <$> p;
     message := message s |}.

(** The effect that depends on [movies]:
    [if (!left || !right) pickPair()], run after [movies] was replaced. *)
Definition movies_effect (rnd : Random) (s : Store) : Store :=
  match left_ s, right_ s with
  | Some _, Some _ => s
  | _, _ => set_pair (pickPair (movies s) rnd) s
  end.

(** The updater passed to [setMovies] by the import. *)
Definition import_movies (merge : bool) (parsed cur : list Item) : list Item :=
  if negb merge then parsed
  else
    let existingIds : gset string := list_to_set (id <$> cur) in
    let toAdd := filter (fun p => id p ∉ existingIds) parsed in
    cur ++ toAdd.

Definition import_message (merge : bool) (parsed : list Item) : string :=
  "Imported " ++ pretty (length parsed) ++ " rows from CSV. "
  ++ (if merge then "(merge mode)" else "(fresh import)").

(** [importRatingsCsv(file, merge)], from the point where the parser
    delivers [results.data] to the [complete] callback. *)
Definition importRatingsCsv (rows : list Row) (merge : bool) (rnd : Random)
    (s : Store) : Store :=
  let parsed := parseRows rows in
  movies_effect rnd
    {| movies := import_movies merge parsed (movies s);
       history := history s;
       left_ := left_ s;
       right_ := right_ s;
       message := import_message merge parsed |}.

(** The [error] callback of the parser. *)
Definition importError (err : string) (s : Store) : Store :=
  {| movies := movies s;
     history := history s;
     left_ := left_ s;
     right_ := right_ s;
     message := "CSV parse error: " ++ err |}.

Definition record_win (m : Item) (newElo : number) : Item :=
  {| id := id m; title := title m; year := year m; rating := rating m;
     elo := newElo; played := played m + 1; wins := wins m + 1;
     losses := losses m |}.

Definition record_loss (m : Item) (newElo : number) : Item :=
  {| id := id m; title := title m; year := year m; rating := rating m;
     elo := newElo; played := played m + 1; wins := wins m;
     losses := losses m + 1 |}.

Section Resolution.

Variable pow_approx : number -> number -> number.

(** The callback of [cur.map] in [handleChoice]. *)
Definition apply_result (a b : Item) (newA newB : number) (m : Item) : Item :=
  if decide (id m = id a) then record_win m newA
  else if decide (id m = id b) then record_loss m newB
  else m.

(** [handleChoice(winnerId, loserId)]; [now] is [new Date().toISOString()].
    The trailing [pickPair()] reads the [movies] of the current render,
    that is the collection before the update. *)
Definition handleChoice (winnerId loserId : string) (now : string)
    (rnd : Random) (s : Store) : Store :=
  let a := List.find (fun m => bool_decide (id m = winnerId)) (movies s) in
  let b := List.find (fun m => bool_decide (id m = loserId)) (movies s) in
  match a, b with
  | Some a, Some b =>
      let '(newA, newB) := updateElo pow_approx (elo a) (elo b) 1 None in
      let entry :=
        {| time := now; winner := id a; loser := id b;
           prevA := elo a; prevB := elo b; newA := newA; newB := newB |} in
      movies_effect (advance (pickPair_draws (movies s)) rnd)
        (set_pair (pickPair (movies s) rnd)
           {| movies := apply_result a b newA newB <$> movies s;
              history := entry :: history s;
              left_ := left_ s;
              right_ := right_ s;
              message := message s |})
  | _, _ => s
  end.

(** [resetAll()], given the answer to the confirmation dialog. *)
Definition resetAll (confirmed : bool) (rnd : Random) (s : Store) : Store :=
  if confirmed then
    movies_effect rnd
      {| movies := []; history := []; left_ := left_ s; right_ := right_ s;
         message := "Cleared data." |}
  else s.

(** The events the component reacts to. *)
Inductive Event :=
| ImportComplete (rows : list Row) (merge : bool) (rnd : Random)
| ImportError (err : string)
| Choice (winnerId loserId : string) (now : string) (rnd : Random)
| Reset (confirmed : bool) (rnd : Random).

Definition step (s : Store) (e : Event) : Store :=
  match e with
  | ImportComplete rows merge rnd => importRatingsCsv rows merge rnd s
  | ImportError err => importError err s
  | Choice w l now rnd => handleChoice w l now rnd s
  | Reset c rnd => resetAll c rnd s
  end.

(** The store of a session that starts without persisted state. *)
Definition initial : Store :=
  {| movies := []; history := []; left_ := None; right_ := None;
     message := "" |}.

Definition run (events : list Event) : Store := foldl step initial events.

(** The states the component can be in. *)
Inductive reachable : Store -> Prop :=
| reachable_initial : reachable initial
| reachable_step s e : reachable s -> reachable (step s e).

End Resolution.

(** ** The rating update as the specification words it *)

Module RatingSpec.
Section RatingSpec.

Variable pow_approx : number -> number -> number.

Local Open Scope float_scope.

(** Expected score for A: [1 / (1 + 10^((eloB - eloA)/400))]. *)
Definition expected (eloA eloB : number) : number :=
  1 / (1 + Math_pow pow_approx 10 ((eloB - eloA) / 400)).

(** The change of a rating before rounding:
    [k * (actualScore - expectedScore)]. *)
Definition delta (k actualScore expectedScore : number) : number :=
  k * (actualScore - expectedScore).

(** Each side gets [old + delta], rounded on its own; B's expected score
    is the complement of A's and B's actual score is [1 - scoreA]. *)
Definition updateRatings (eloA eloB scoreA k : number) : number * number :=
  let expectedA := expected eloA eloB in
  let expectedB := 1 - expectedA in
  (Math_round (eloA + delta k scoreA expectedA),
   Math_round (eloB + delta k (1 - scoreA) expectedB)).

End RatingSpec.
End RatingSpec.

(** ** A host for examples *)

(** A host whose general case of [Math.pow] raises to integral exponents
    by repeated multiplication and gives [NaN] elsewhere; it serves to
    evaluate the development on concrete inputs. *)
Definition sample_pow (base exponent : number) : number :=
  match to_Z exponent with
  | Some z =>
      let p := Nat.iter (Z.abs_nat z) (fun acc => acc * base)%float 1%float in
      if (0 <=? z)%Z then p else (1 / p)%float
  | None => nan
  end.

(** ** Predicates used by the statements *)

(** The invariant of the counters of an item. *)
Definition counters_ok (m : Item) : Prop := played m = (wins m + losses m)%nat.

(** The ids of a collection, in order. *)
Definition ids (l : list Item) : list string := id <$> l.

(** An import event whose batch has pairwise distinct ids; other events
    are not constrained. *)
Definition distinct_batch (e : Event) : Prop :=
  match e with
  | ImportComplete rows _ _ => NoDup (ids (parseRows rows))
  | _ => True
  end.

Section Consistency.

Context {A : Type}.
Variable comparefn : A -> A -> number.

(** What a consistent comparator satisfies at three elements: the two
    directions of a comparison agree, nothing sorts before itself, and
    sorting before, as well as not sorting before, is transitive. *)
Definition consistent_at (x y z : A) : Prop :=
  sorts_after comparefn x y = sorts_before comparefn y x
  /\ sorts_before comparefn x x = false
  /\ (sorts_before comparefn x y = true ->
      sorts_before comparefn y z = true ->
      sorts_before comparefn x z = true)
  /\ (sorts_before comparefn x y = false ->
      sorts_before comparefn y z = false ->
      sorts_before comparefn x z = false).

(** [comparefn] is a consistent comparator on the elements of [l]: the
    condition under which ECMAScript defines the order [sort] produces. *)
Definition consistent_on (l : list A) : Prop :=
  forall x y z, x ∈ l -> y ∈ l -> z ∈ l -> consistent_at x y z.

End Consistency.

(** The recorded rating difference of a pick. *)
Definition pick_diff (p : Pick) : number := snd p.

(** ** Export, rankings and history views *)

(** A value handed to [csvEscapeCell]: [null], a string or a Number. *)
Inductive JsValue :=
| JsNull
| JsString (s : string)
| JsNumber (x : number).

(** The double quote and the line feed. *)
Definition dquote : ascii := "034"%char.
Definition newline : ascii := "010"%char.

(** [str.includes(c)] for a one-character string [c]. *)
Fixpoint includes (c : ascii) (str : string) : bool :=
  match str with
  | String d r => Ascii.eqb d c || includes c r
  | EmptyString => false
  end.

(** The global [replace] of [csvEscapeCell]: every quote is doubled. *)
Fixpoint double_quotes (str : string) : string :=
  match str with
  | String d r =>
      if Ascii.eqb d dquote then String dquote (String dquote (double_quotes r))
      else String d (double_quotes r)
  | EmptyString => EmptyString
  end.

(** The test of [csvEscapeCell]: a comma, a quote or a line feed occurs. *)
Definition needs_quotes (str : string) : bool :=
  includes "," str || includes dquote str || includes newline str.

(** The string branch of [csvEscapeCell]. *)
Definition escape_string (str : string) : string :=
  if needs_quotes str then String dquote (double_quotes str ++ String dquote "")
  else str.

Section Views.

(** The host's [Number::toString] outside the cases fixed below, and its
    [Date.prototype.toLocaleString] applied to a time stamp. *)
Variable digits_of : number -> string.
Variable toLocaleString : string -> string.

(** [String(x)] for a Number: [NaN], the infinities and the integers up
    to 2^53 in magnitude have the strings ECMAScript fixes (an integer its
    decimal digits, both zeros ["0"]); the rest is the host's. *)
Definition Number_toString (x : number) : string :=
  if is_nan x then "NaN"
  else if (x =? infinity)%float then "Infinity"
  else if (x =? neg_infinity)%float then "-Infinity"
  else
    match to_Z x with
    | Some z => if (Z.abs z <=? 2 ^ 53)%Z then pretty z else digits_of x
    | None => digits_of x
    end.

(** [String(s)]. *)
Definition String_of (v : JsValue) : string :=
  match v with
  | JsNull => "null"
  | JsString s => s
  | JsNumber x => Number_toString x
  end.

(** [csvEscapeCell(s)]. *)
Definition csvEscapeCell (s : JsValue) : string :=
  match s with
  | JsNull => ""
  | _ => escape_string (String_of s)
  end.

(** [movies.slice().sort((a, b) => b.elo - a.elo)]: the order of the
    rankings table and of the export. *)
Definition ranking (movies : list Item) : list Item :=
  array_sort (fun a b => (elo b - elo a)%float) movies.

Definition export_header : list JsValue :=
  [JsString "Title"; JsString "Year"; JsString "Rating"; JsString "Elo";
   JsString "Played"; JsString "Wins"; JsString "Losses"].

(** A counter as the Number it is in the program. *)
Definition count (n : nat) : JsValue := JsNumber (of_Z (Z.of_nat n)).

(** The callback of [.map] in [exportCsv]: title, year (or the empty
    string), rating (the empty string for [null]), elo, played, wins and
    losses. *)
Definition export_row (m : Item) : list JsValue :=
  [JsString (title m);
   JsString (or_string (Some (year m)) "");
   match rating m with Some x => JsNumber x | None => JsString "" end;
   JsNumber (elo m);
   count (played m); count (wins m); count (losses m)].

Definition export_rows (movies : list Item) : list (list JsValue) :=
  export_header :: (export_row <$> ranking movies).

(** [exportCsv()]: the text handed to the download, [None] when the
    function returns at once. *)
Definition exportCsv (movies : list Item) : option string :=
  match movies with
  | [] => None
  | _ :: _ =>
      Some
        (String.concat (String newline "")
           ((fun r => String.concat "," (csvEscapeCell <$> r))
              <$> export_rows movies))
  end.

(** [x || 0] for a Number. *)
Definition number_or_zero (x : number) : number :=
  if falsy x then 0%float else x.

(** A row of the history table: the formatted time, the labels of winner
    and loser, and the two printed rating changes. *)
Record HistoryRow := {
  row_when : string;
  row_winner : string;
  row_loser : string;
  row_deltaA : number;
  row_deltaB : number
}.

(** [(movies.find((m) => m.id === k) || {}).title || k]. *)
Definition label_of (movies : list Item) (k : string) : string :=
  or_string (title <$> List.find (fun m => bool_decide (id m = k)) movies) k.

(** The callback of [history.slice(0, 200).map]. *)
Definition history_row (movies : list Item) (h : HistoryEntry) : HistoryRow :=
  {| row_when := toLocaleString (time h);
     row_winner := label_of movies (winner h);
     row_loser := label_of movies (loser h);
     row_deltaA := (number_or_zero (newA h) - number_or_zero (prevA h))%float;
     row_deltaB := (number_or_zero (newB h) - number_or_zero (prevB h))%float |}.

Definition history_view (s : Store) : list HistoryRow :=
  history_row (movies s) <$> take 200 (history s).

End Views.

Section Click.

Variable pow_approx : number -> number -> number.

(** The [onClick] of the button of card [i] (0 is [left], 1 is [right]).
    The cards are rendered only with two items or more, and a button only
    on a card that holds an item; the other card's id is read with [?.],
    and an [undefined] loser id is the id of no item. *)
Definition clickCard (i : nat) (now : string) (rnd : Random) (s : Store)
    : Store :=
  if (length (movies s) <? 2)%nat then s
  else
    let m := match i with O => left_ s | S _ => right_ s end in
    let other := match i with O => right_ s | S _ => left_ s end in
    match m with
    | None => s
    | Some m =>
        match other with
        | Some o => handleChoice pow_approx (id m) (id o) now rnd s
        | None => s
        end
    end.

End Click.

(** An event that does not clear the history: anything but a confirmed
    reset. *)
Definition keeps_log (e : Event) : Prop :=
  match e with
  | Reset true _ => False
  | _ => True
  end.

(** Two items rank alike: neither elo is below the other. *)
Definition same_rank (z m : Item) : Prop :=
  (elo z <? elo m)%float = false /\ (elo m <? elo z)%float = false.

(** An event of a session in which ids identify items: an import whose
    batch has pairwise distinct ids, or a comparison of two different
    ids; other events are not constrained. *)
Definition two_sided (e : Event) : Prop :=
  match e with
  | ImportComplete rows _ _ => NoDup (ids (parseRows rows))
  | Choice w l _ _ => w <> l
  | _ => True
  end.

(** The totals of the three counters over a collection. *)
Definition total (counter : Item -> nat) (l : list Item) : nat :=
  sum_list_with counter l.

(** * Theorems *)

(** ** Rating engine *)

Lemma falsy_false_not_nan (x : number) : falsy x = false -> is_nan x = false.
Proof. unfold falsy. intros H. apply orb_false_elim in H. tauto. Qed.

(** For a Number that passes the guard the seed is the rounded linear map. *)
Lemma ratingToInitialElo_linear (x : number) :
  falsy x = false ->
  ratingToInitialElo (Some x) = Math_round (1200 + (x - 2.5) * 200)%float.
Proof.
  intros H. unfold ratingToInitialElo.
  rewrite H, (falsy_false_not_nan x H). reflexivity.
Qed.

(** The seeds of the ratings 0.5, 1, ..., 5 rise in steps of 100. *)
Lemma ratingToInitialElo_half_steps :
  map (fun r => ratingToInitialElo (Some r))
      [0.5; 1; 1.5; 2; 2.5; 3; 3.5; 4; 4.5; 5]%float
  = [800; 900; 1000; 1100; 1200; 1300; 1400; 1500; 1600; 1700]%float.
Proof. vm_compute. reflexivity. Qed.

(** C1 (the code departs from the claim at rating 0): a rating of 0 is a
    present numeric rating, stored as such by the import, yet the guard
    [!rating] sends it to the default 1200 instead of
    [round(1200 + (0 - 2.5) * 200) = 700]; the seed of 0 is then above the
    seed of 0.5, so the map is not monotone on [0, 5].  The other parts of
    the claim hold: 2.5, [null] and [NaN] give 1200. *)
Theorem ratingToInitialElo_zero_rating :
  ratingToInitialElo (Some 0%float) = 1200%float
  /\ Math_round (1200 + (0 - 2.5) * 200)%float = 700%float
  /\ ratingToInitialElo (Some 0.5%float) = 800%float
  /\ (0 <=? 0.5)%float = true
  /\ (ratingToInitialElo (Some 0%float) <=? ratingToInitialElo (Some 0.5%float))%float
     = false
  /\ map (fun m => (rating m, elo m))
       (parseRows [[("Title", "X"); ("Year", "2001"); ("Rating", "0")]])
     = [(Some 0%float, 1200%float)]
  /\ ratingToInitialElo (Some 2.5%float) = 1200%float
  /\ ratingToInitialElo None = 1200%float
  /\ ratingToInitialElo (Some nan) = 1200%float.
Proof. vm_compute. repeat split; reflexivity. Qed.

(** C3: [updateElo] is the update the specification describes (expected
    score [1 / (1 + 10^((eloB - eloA)/400))], its complement for B, each
    side [round(old + k * (actual - expected))] rounded on its own, [k]
    defaulting to 32); at [(1200, 1200, 1, 32)] the winner ends at 1216,
    above 1200, the loser at 1184, below 1200, and the two changes before
    rounding are 16 and -16, equal in magnitude.  This holds for every host
    implementation of the general case of [Math.pow]. *)
Theorem updateElo_meets_spec (pow_approx : number -> number -> number) :
  (forall eloA eloB scoreA k,
      updateElo pow_approx eloA eloB scoreA k
      = RatingSpec.updateRatings pow_approx eloA eloB scoreA (default 32%float k))
  /\ (forall eloA eloB,
         expectedScore pow_approx eloA eloB
         = (1 / (1 + Math_pow pow_approx 10 ((eloB - eloA) / 400)))%float)
  /\ updateElo pow_approx 1200 1200 1 (Some 32%float) = (1216%float, 1184%float)
  /\ updateElo pow_approx 1200 1200 1 None = (1216%float, 1184%float)
  /\ (1200 <? 1216)%float = true
  /\ (1184 <? 1200)%float = true
  /\ RatingSpec.delta 32 1 (RatingSpec.expected pow_approx 1200 1200) = 16%float
  /\ RatingSpec.delta 32 (1 - 1) (1 - RatingSpec.expected pow_approx 1200 1200)
     = (-16)%float
  /\ Math_abs 16 = Math_abs (-16).
Proof.
  split; [reflexivity|]. split; [reflexivity|].
  vm_compute. repeat split; reflexivity.
Qed.

(** ** White space and ids *)

Lemma append_cons (c : ascii) (a b : string) :
  String c a ++ b = String c (a ++ b).
Proof. reflexivity. Qed.

Lemma append_nil (b : string) : "" ++ b = b.
Proof. reflexivity. Qed.

Lemma trimStart_app_bar (a b : string) :
  trimStart (a ++ "|" ++ b) = trimStart a ++ "|" ++ b.
Proof.
  induction a as [|c a IH]; [reflexivity|].
  rewrite append_cons. cbn [trimStart].
  destruct (is_ws c); [exact IH | reflexivity].
Qed.

Lemma app_bar_nonempty (a b : string) : a ++ "|" ++ b <> "".
Proof. destruct a; discriminate. Qed.

Lemma trimEnd_cons_nonempty (c : ascii) (r : string) :
  trimEnd r <> "" -> trimEnd (String c r) = String c (trimEnd r).
Proof. cbn [trimEnd]. destruct (trimEnd r); [congruence | reflexivity]. Qed.

Lemma trimEnd_app_bar (a b : string) :
  trimEnd (a ++ "|" ++ b) = a ++ "|" ++ trimEnd b.
Proof.
  induction a as [|c a IH].
  - rewrite !append_nil, !append_cons, !append_nil. cbn [trimEnd].
    destruct (trimEnd b); reflexivity.
  - rewrite append_cons, trimEnd_cons_nonempty; rewrite IH.
    + reflexivity.
    + apply app_bar_nonempty.
Qed.

(** Trimming a title, a bar and a year as one string only strips the
    outer ends. *)
Lemma trim_app_bar (a b : string) :
  trim (a ++ "|" ++ b) = trimStart a ++ "|" ++ trimEnd b.
Proof. unfold trim. rewrite trimStart_app_bar. apply trimEnd_app_bar. Qed.

Lemma trim_empty : trim "" = "".
Proof. reflexivity. Qed.

(** The id and the stored fields of one converted row. *)
Lemma parseRow_fields (tKey rKey yKey : option string) (r : Row) :
  let m := parseRow tKey rKey yKey r in
  id m = trim (row_title tKey r ++ "|" ++ row_year yKey r)
  /\ title m = trim (row_title tKey r)
  /\ year m = trim (row_year yKey r)
  /\ rating m = normalizeRating (row_rawRating rKey r)
  /\ elo m = ratingToInitialElo (rating m).
Proof.
  cbn zeta. repeat split.
  cbn [parseRow year].
  destruct (String.eqb_spec (row_year yKey r) "") as [->|]; reflexivity.
Qed.

(** C4 (as amended): the id of every imported row is
    [trim(title + "|" + year)], which is
    [trimStart(title) + "|" + trimEnd(year)], for the resolved title (the
    title field, else the first field, else ["Unknown"]) and the resolved
    year; so the id is a function of the title without its leading and the
    year without its trailing white space, while the stored title and year
    are the fully trimmed ones. *)
Theorem parseRows_id (rows : list Row) :
  let row0 := default [] (head rows) in
  let tKey := mapKey titleKeys row0 in
  let yKey := mapKey yearKeys row0 in
  ids (parseRows rows)
  = (fun r => trim (row_title tKey r ++ "|" ++ row_year yKey r)) <$> rows
  /\ ids (parseRows rows)
     = (fun r => trimStart (row_title tKey r) ++ "|" ++ trimEnd (row_year yKey r))
         <$> rows
  /\ title <$> parseRows rows = (fun r => trim (row_title tKey r)) <$> rows
  /\ year <$> parseRows rows = (fun r => trim (row_year yKey r)) <$> rows
  /\ (forall r,
        row_title tKey r
        = or_string (or_else (guarded_get tKey r) (first_field r)) "Unknown").
Proof.
  cbn zeta. unfold ids, parseRows. rewrite <- !list_fmap_compose.
  split; [|split; [|split; [|split]]]; try reflexivity.
  - apply list_fmap_ext. intros i r _. apply trim_app_bar.
  - apply list_fmap_ext. intros i r _. apply parseRow_fields.
Qed.

(** C4 (the claim as stated fails): the rows [{Title: "X ", Year: "2001"}]
    and [{Title: "X", Year: "2001"}] have the same trimmed title and the
    same trimmed year, yet the first gets the id ["X |2001"], which is not
    [trim(title) + "|" + trim(year)], and the second ["X|2001"]. *)
Lemma parseRow_id_keeps_inner_space :
  let r1 : Row := [("Title", "X "); ("Year", "2001"); ("Rating", "5")] in
  let r2 : Row := [("Title", "X"); ("Year", "2001"); ("Rating", "5")] in
  let tKey := mapKey titleKeys r1 in
  let yKey := mapKey yearKeys r1 in
  trim (row_title tKey r1) = trim (row_title tKey r2)
  /\ trim (row_year yKey r1) = trim (row_year yKey r2)
  /\ ids (parseRows [r1; r2]) = ["X |2001"; "X|2001"]
  /\ trim (row_title tKey r1) ++ "|" ++ trim (row_year yKey r1) = "X|2001"
  /\ String.eqb "X |2001" "X|2001" = false.
Proof. vm_compute. repeat split; reflexivity. Qed.

(** ** Rating field *)

Lemma normalizeRating_None (raw : string) :
  normalizeRating raw = None <-> raw = "".
Proof.
  unfold normalizeRating. destruct (String.eqb_spec raw "") as [->|Hne].
  - tauto.
  - split; [discriminate | congruence].
Qed.

(** C5 (as amended): the rating of every imported row is [null] exactly
    when the raw rating string is empty; any other raw string gives
    [parseFloat] of it, and the elo is seeded from that rating; a string
    without a numeric prefix such as ["abc"] therefore gives the rating
    [NaN], not [null], and the default seed 1200. *)
Theorem parseRows_rating (rows : list Row) :
  let rKey := mapKey ratingKeys (default [] (head rows)) in
  rating <$> parseRows rows
  = (fun r =>
       if String.eqb (row_rawRating rKey r) "" then None
       else Some (parseFloat (row_rawRating rKey r))) <$> rows
  /\ Forall2 (fun r m => rating m = None <-> row_rawRating rKey r = "")
       rows (parseRows rows)
  /\ Forall (fun m => elo m = ratingToInitialElo (rating m)) (parseRows rows)
  /\ parseFloat "abc" = nan
  /\ parseFloat "3.5" = 3.5%float
  /\ ratingToInitialElo (Some nan) = 1200%float.
Proof.
  cbn zeta. unfold parseRows. split; [|split; [|split]].
  - rewrite <- list_fmap_compose. reflexivity.
  - apply Forall2_fmap_r, Forall_Forall2_diag, Forall_forall.
    intros r _. apply normalizeRating_None.
  - apply Forall_fmap, Forall_forall. intros r _. reflexivity.
  - vm_compute. repeat split; reflexivity.
Qed.

(** C5 (the claim as stated fails): the row
    [{Title: "X", Year: "2001", Rating: "abc"}] has a non-numeric raw
    rating string and its item's rating is [NaN], which is not [null]. *)
Lemma parseRow_rating_abc_is_nan :
  let r : Row := [("Title", "X"); ("Year", "2001"); ("Rating", "abc")] in
  row_rawRating (mapKey ratingKeys r) r = "abc"
  /\ map rating (parseRows [r]) = [Some nan]
  /\ map (fun m => bool_decide (is_Some (rating m))) (parseRows [r]) = [true].
Proof. vm_compute. repeat split; reflexivity. Qed.

(** ** Frame lemmas for the store *)

Lemma movies_effect_movies (rnd : Random) (s : Store) :
  movies (movies_effect rnd s) = movies s.
Proof. unfold movies_effect. destruct (left_ s), (right_ s); reflexivity. Qed.

Lemma movies_effect_history (rnd : Random) (s : Store) :
  history (movies_effect rnd s) = history s.
Proof. unfold movies_effect. destruct (left_ s), (right_ s); reflexivity. Qed.

Lemma importRatingsCsv_movies rows merge rnd s :
  movies (importRatingsCsv rows merge rnd s)
  = import_movies merge (parseRows rows) (movies s).
Proof. unfold importRatingsCsv. by rewrite movies_effect_movies. Qed.

Lemma importRatingsCsv_history rows merge rnd s :
  history (importRatingsCsv rows merge rnd s) = history s.
Proof. unfold importRatingsCsv. by rewrite movies_effect_history. Qed.

(** ** Import merger *)

(** The set of existing ids holds exactly the ids of the collection. *)
Lemma import_movies_merge (parsed cur : list Item) :
  import_movies true parsed cur
  = (cur ++ filter (fun p => id p ∉ ids cur) parsed)%list.
Proof.
  unfold import_movies, ids. cbn [negb]. f_equal.
  apply list_filter_iff. intros p. by rewrite elem_of_list_to_set.
Qed.

Lemma filter_none {A} (P : A -> Prop) `{!forall x, Decision (P x)} (l : list A) :
  (forall x, x ∈ l -> ~ P x) -> filter P l = [].
Proof.
  induction l as [|x l IH]; intros Hall; [reflexivity|].
  rewrite filter_cons_False.
  - apply IH. intros y Hy. apply Hall. by right.
  - apply Hall. by left.
Qed.

(** A second merge of the same batch finds every id present. *)
Lemma import_movies_merge_twice (parsed cur : list Item) :
  import_movies true parsed (import_movies true parsed cur)
  = import_movies true parsed cur.
Proof.
  rewrite (import_movies_merge parsed (import_movies true parsed cur)).
  rewrite filter_none; [apply app_nil_r|].
  intros p Hp Hnew. apply Hnew.
  rewrite import_movies_merge. unfold ids. rewrite fmap_app, elem_of_app.
  destruct (decide (id p ∈ ids cur)) as [Hin|Hout]; [by left|right].
  apply list_elem_of_fmap_2, list_elem_of_filter. done.
Qed.

Lemma find_app_l {A} (f : A -> bool) (l k : list A) (x : A) :
  List.find f l = Some x -> List.find f (l ++ k)%list = Some x.
Proof.
  induction l as [|y l IH]; cbn; [discriminate|].
  destruct (f y); [done | exact IH].
Qed.

Lemma find_id_is_Some (k : string) (l : list Item) :
  k ∈ ids l -> is_Some (List.find (fun m => bool_decide (id m = k)) l).
Proof.
  induction l as [|y l IH]; cbn.
  - intros H. by apply elem_of_nil in H.
  - intros [->|H]%elem_of_cons.
    + rewrite bool_decide_eq_true_2 by done. eauto.
    + destruct (bool_decide (id y = k)); [eauto | by apply IH].
Qed.

(** C6: a merge import yields the current collection followed by exactly
    the parsed items whose id is not among the current ids, in their
    order; the current items stay as they are, so the item found under an
    id that was present (its rating and elo included) is the one stored
    before; importing the same rows again in merge mode leaves the
    collection as the first import made it. *)
Theorem merge_import_appends_new (rows : list Row) (rnd rnd' : Random) (s : Store) :
  let parsed := parseRows rows in
  let s1 := importRatingsCsv rows true rnd s in
  movies s1 = (movies s ++ filter (fun p => id p ∉ ids (movies s)) parsed)%list
  /\ take (length (movies s)) (movies s1) = movies s
  /\ (forall k, k ∈ ids (movies s) ->
        List.find (fun m => bool_decide (id m = k)) (movies s1)
        = List.find (fun m => bool_decide (id m = k)) (movies s))
  /\ movies (importRatingsCsv rows true rnd' s1) = movies s1.
Proof.
  cbn zeta. rewrite !importRatingsCsv_movies, import_movies_merge_twice.
  rewrite import_movies_merge. repeat split.
  - apply take_app_length.
  - intros k Hk. destruct (find_id_is_Some k (movies s) Hk) as [m Hm].
    rewrite Hm. by apply find_app_l.
Qed.

(** C6, on the scenario of the specification: the rows
    [{Title: "X", Year: "2001", Rating: "5"}] and
    [{Title: "X", Year: "2001", Rating: "1"}] imported one after the other
    in merge mode leave one item, with the rating 5 and its seed 1700. *)
Lemma merge_import_first_write_wins :
  let row5 : Row := [("Title", "X"); ("Year", "2001"); ("Rating", "5")] in
  let row1 : Row := [("Title", "X"); ("Year", "2001"); ("Rating", "1")] in
  let rnd : Random := fun _ => 0%float in
  let s1 := importRatingsCsv [row5] true rnd initial in
  let s2 := importRatingsCsv [row1] true rnd s1 in
  movies s2 = movies s1
  /\ length (movies s2) = 1%nat
  /\ map (fun m => (id m, rating m, elo m)) (movies s2)
     = [("X|2001", Some 5%float, 1700%float)]
  /\ List.find (fun m => bool_decide (id m = "X|2001")) (movies s2)
     = List.find (fun m => bool_decide (id m = "X|2001")) (movies s1).
Proof.
  cbn zeta.
  set (row5 := [("Title", "X"); ("Year", "2001"); ("Rating", "5")]).
  set (row1 := [("Title", "X"); ("Year", "2001"); ("Rating", "1")]).
  set (rnd := fun _ : nat => 0%float).
  set (s1 := importRatingsCsv [row5] true rnd initial).
  destruct (merge_import_appends_new [row1] rnd rnd s1) as (_ & _ & Hfind & _).
  split; [vm_compute; reflexivity|].
  split; [vm_compute; reflexivity|].
  split; [vm_compute; reflexivity|].
  apply Hfind. vm_compute. by left.
Defined.

(** C8: a fresh import makes the collection exactly the parsed items,
    whatever the collection was (so import A then import B leaves B's
    items), and the history log is the one from before the import. *)
Theorem fresh_import_replaces (rowsA rowsB : list Row) (rndA rndB : Random)
    (s : Store) :
  movies (importRatingsCsv rowsB false rndB s) = parseRows rowsB
  /\ history (importRatingsCsv rowsB false rndB s) = history s
  /\ movies (importRatingsCsv rowsB false rndB
               (importRatingsCsv rowsA false rndA s))
     = parseRows rowsB
  /\ history (importRatingsCsv rowsB false rndB
                (importRatingsCsv rowsA false rndA s))
     = history s.
Proof.
  rewrite !importRatingsCsv_movies, !importRatingsCsv_history. done.
Qed.

(** ** Comparison resolution *)

Section ResolutionFacts.

Variable pow_approx : number -> number -> number.

Lemma apply_result_id a b nA nB m : id (apply_result a b nA nB m) = id m.
Proof. unfold apply_result. repeat case_decide; reflexivity. Qed.

Lemma apply_result_ids a b nA nB (l : list Item) :
  ids (apply_result a b nA nB <$> l) = ids l.
Proof.
  unfold ids. rewrite <- list_fmap_compose. apply list_fmap_ext.
  intros i m _. apply apply_result_id.
Qed.

Lemma apply_result_counters a b nA nB m :
  counters_ok m -> counters_ok (apply_result a b nA nB m).
Proof.
  unfold counters_ok, apply_result.
  repeat case_decide; cbn [played wins losses record_win record_loss]; lia.
Qed.

(** What [handleChoice] does once both items are found. *)
Lemma handleChoice_found w l now rnd s a b :
  List.find (fun m => bool_decide (id m = w)) (movies s) = Some a ->
  List.find (fun m => bool_decide (id m = l)) (movies s) = Some b ->
  let r := updateElo pow_approx (elo a) (elo b) 1 None in
  movies (handleChoice pow_approx w l now rnd s)
  = apply_result a b (fst r) (snd r) <$> movies s
  /\ history (handleChoice pow_approx w l now rnd s)
     = {| time := now; winner := id a; loser := id b;
          prevA := elo a; prevB := elo b;
          newA := fst r; newB := snd r |} :: history s.
Proof.
  intros Ha Hb r. unfold handleChoice. rewrite Ha, Hb.
  fold r. destruct r as [nA nB].
  rewrite movies_effect_movies, movies_effect_history. done.
Qed.

(** Without one of the two items [handleChoice] returns at once. *)
Lemma handleChoice_absent w l now rnd s :
  List.find (fun m => bool_decide (id m = w)) (movies s) = None
  \/ List.find (fun m => bool_decide (id m = l)) (movies s) = None ->
  handleChoice pow_approx w l now rnd s = s.
Proof.
  unfold handleChoice. intros [-> | ->]; [reflexivity|].
  by destruct (List.find _ (movies s)).
Qed.

Lemma find_id_Some (k : string) (l : list Item) (a : Item) :
  List.find (fun m => bool_decide (id m = k)) l = Some a ->
  a ∈ l /\ id a = k.
Proof.
  intros H. apply List.find_some in H as [Hin Hk].
  apply list_elem_of_In in Hin. by apply bool_decide_eq_true_1 in Hk.
Qed.

Lemma handleChoice_ids w l now rnd s :
  ids (movies (handleChoice pow_approx w l now rnd s)) = ids (movies s).
Proof.
  destruct (List.find (fun m => bool_decide (id m = w)) (movies s)) as [a|] eqn:Ha;
    [|by rewrite handleChoice_absent by auto].
  destruct (List.find (fun m => bool_decide (id m = l)) (movies s)) as [b|] eqn:Hb;
    [|by rewrite handleChoice_absent by auto].
  destruct (handleChoice_found w l now rnd s a b Ha Hb) as [-> _].
  apply apply_result_ids.
Qed.

Lemma handleChoice_counters w l now rnd s :
  Forall counters_ok (movies s) ->
  Forall counters_ok (movies (handleChoice pow_approx w l now rnd s)).
Proof.
  intros Hs.
  destruct (List.find (fun m => bool_decide (id m = w)) (movies s)) as [a|] eqn:Ha;
    [|by rewrite handleChoice_absent by auto].
  destruct (List.find (fun m => bool_decide (id m = l)) (movies s)) as [b|] eqn:Hb;
    [|by rewrite handleChoice_absent by auto].
  destruct (handleChoice_found w l now rnd s a b Ha Hb) as [-> _].
  apply Forall_fmap. eapply Forall_impl; [exact Hs|].
  intros m Hm. by apply apply_result_counters.
Qed.

Lemma resetAll_movies c rnd s :
  movies (resetAll c rnd s) = if c then [] else movies s.
Proof. unfold resetAll. destruct c; [by rewrite movies_effect_movies | done]. Qed.

End ResolutionFacts.

(** ** Imports and the invariants *)

Lemma parseRows_counters (rows : list Row) :
  Forall (fun m => played m = 0%nat /\ wins m = 0%nat /\ losses m = 0%nat)
    (parseRows rows).
Proof. unfold parseRows. apply Forall_fmap, Forall_forall. by intros r _. Qed.

Lemma import_movies_counters merge (parsed cur : list Item) :
  Forall counters_ok parsed -> Forall counters_ok cur ->
  Forall counters_ok (import_movies merge parsed cur).
Proof.
  intros Hp Hc. destruct merge; [|exact Hp].
  rewrite import_movies_merge. apply Forall_app_2; [exact Hc|].
  apply Forall_forall. intros m [_ Hm]%list_elem_of_filter.
  by apply (proj1 (Forall_forall _ _) Hp).
Qed.

Lemma ids_filter_NoDup (P : Item -> Prop) `{!forall x, Decision (P x)}
    (l : list Item) :
  NoDup (ids l) -> NoDup (ids (filter P l)).
Proof.
  unfold ids. induction l as [|x l IH]; [done|].
  rewrite fmap_cons, NoDup_cons. intros [Hx Hl].
  rewrite filter_cons. case_decide; [|by apply IH].
  rewrite fmap_cons, NoDup_cons. split; [|by apply IH].
  intros (y & Hy & [_ Hin]%list_elem_of_filter)%list_elem_of_fmap.
  apply Hx. rewrite Hy. by apply list_elem_of_fmap_2.
Qed.

Lemma import_movies_NoDup merge (parsed cur : list Item) :
  NoDup (ids parsed) -> NoDup (ids cur) ->
  NoDup (ids (import_movies merge parsed cur)).
Proof.
  intros Hp Hc. destruct merge; [|exact Hp].
  rewrite import_movies_merge. unfold ids. rewrite fmap_app.
  apply NoDup_app. split; [exact Hc|]. split.
  - intros k Hk (p & -> & [Hnew _]%list_elem_of_filter)%list_elem_of_fmap.
    by apply Hnew.
  - by apply ids_filter_NoDup.
Qed.

Section StoreInvariants.

Variable pow_approx : number -> number -> number.

Lemma reachable_foldl (events : list Event) (s : Store) :
  reachable pow_approx s -> reachable pow_approx (foldl (step pow_approx) s events).
Proof.
  revert s. induction events as [|e events IH]; intros s Hs; [exact Hs|].
  cbn [foldl]. apply IH. by constructor.
Qed.

(** Every run of events ends in a reachable state. *)
Lemma reachable_run (events : list Event) :
  reachable pow_approx (run pow_approx events).
Proof. apply reachable_foldl. constructor. Qed.

Lemma step_counters (s : Store) (e : Event) :
  Forall counters_ok (movies s) ->
  Forall counters_ok (movies (step pow_approx s e)).
Proof.
  intros Hs. destruct e as [rows merge rnd|err|w l now rnd|c rnd]; cbn [step].
  - rewrite importRatingsCsv_movies. apply import_movies_counters; [|exact Hs].
    eapply Forall_impl; [apply parseRows_counters|].
    intros m (Hp & Hw & Hl). unfold counters_ok. lia.
  - exact Hs.
  - by apply handleChoice_counters.
  - rewrite resetAll_movies. destruct c; [constructor | exact Hs].
Qed.

Lemma step_NoDup (s : Store) (e : Event) :
  distinct_batch e ->
  NoDup (ids (movies s)) ->
  NoDup (ids (movies (step pow_approx s e))).
Proof.
  intros He Hs. destruct e as [rows merge rnd|err|w l now rnd|c rnd]; cbn [step].
  - rewrite importRatingsCsv_movies. by apply import_movies_NoDup.
  - exact Hs.
  - by rewrite handleChoice_ids.
  - rewrite resetAll_movies. destruct c; [constructor | exact Hs].
Qed.

Lemma run_snoc (events : list Event) (e : Event) :
  run pow_approx (events ++ [e]) = step pow_approx (run pow_approx events) e.
Proof. unfold run. apply foldl_snoc. Qed.

Lemma run_NoDup (events : list Event) :
  Forall distinct_batch events ->
  NoDup (ids (movies (run pow_approx events))).
Proof.
  induction events as [|e events IH] using rev_ind; intros Hev.
  - constructor.
  - apply Forall_app in Hev as [Hev He]. apply Forall_cons_1 in He as [He _].
    rewrite run_snoc. apply step_NoDup; [exact He | by apply IH].
Qed.

End StoreInvariants.

(** C2 (as amended): comparison resolution leaves the list of ids as it
    is, and a merge import only appends items whose id is not among the
    current ones; neither kind of import removes duplicates within its
    batch, so the ids of the collection are pairwise distinct in every
    state reached by events whose import batches have pairwise distinct
    ids. *)
Theorem ids_distinct_when_batches_distinct
    (pow_approx : number -> number -> number) (events : list Event) :
  Forall distinct_batch events ->
  let s := run pow_approx events in
  NoDup (ids (movies s))
  /\ (forall w l now rnd,
         ids (movies (handleChoice pow_approx w l now rnd s)) = ids (movies s))
  /\ (forall rows rnd,
         exists added,
           movies (importRatingsCsv rows true rnd s) = (movies s ++ added)%list
           /\ forall p, p ∈ added -> id p ∉ ids (movies s)).
Proof.
  intros Hev s. split; [by apply run_NoDup|]. split.
  - intros. apply handleChoice_ids.
  - intros rows rnd. rewrite importRatingsCsv_movies, import_movies_merge.
    eexists. split; [reflexivity|].
    by intros p [Hnew _]%list_elem_of_filter.
Qed.

(** C2, on a run: a fresh import of three distinct films, a resolved
    comparison and a merge import that brings one known and one new film
    end with four pairwise distinct ids. *)
Lemma ids_distinct_on_a_run :
  let batch1 : list Row :=
    [[("Title", "A"); ("Year", "2001"); ("Rating", "4.5")];
     [("Title", "B"); ("Year", "2002"); ("Rating", "2.5")];
     [("Title", "C"); ("Year", "2003"); ("Rating", "")]] in
  let batch2 : list Row :=
    [[("Name", "B"); ("Year", "2002"); ("Rating", "1")];
     [("Name", "D"); ("Year", "2004"); ("Rating", "3")]] in
  let rnd : Random := fun i => of_ratio (Z.of_nat (i * 7 mod 10)) 10 in
  let events :=
    [ImportComplete batch1 false rnd;
     Choice "A|2001" "B|2002" "2024-01-01T00:00:00.000Z" rnd;
     ImportComplete batch2 true rnd] in
  ids (movies (run sample_pow events)) = ["A|2001"; "B|2002"; "C|2003"; "D|2004"]
  /\ NoDup (ids (movies (run sample_pow events))).
Proof.
  cbn zeta. split; [vm_compute; reflexivity|].
  apply (ids_distinct_when_batches_distinct sample_pow).
  repeat (apply Forall_cons; split); try exact I; try apply Forall_nil_2;
    apply (bool_decide_unpack _); vm_compute; exact I.
Defined.

(** C2 (the claim as stated fails): a batch with two rows of the same
    title and year gives, by a fresh import and by a merge import alike, a
    collection in which two items share the id ["X|2001"]. *)
Lemma import_keeps_duplicates_of_a_batch :
  let batch : list Row :=
    [[("Title", "X"); ("Year", "2001"); ("Rating", "5")];
     [("Title", "X"); ("Year", "2001"); ("Rating", "1")]] in
  let rnd : Random := fun _ => 0%float in
  let fresh := run sample_pow [ImportComplete batch false rnd] in
  let merged := run sample_pow [ImportComplete batch true rnd] in
  ids (movies fresh) = ["X|2001"; "X|2001"]
  /\ ids (movies merged) = ["X|2001"; "X|2001"]
  /\ bool_decide (NoDup (ids (movies fresh))) = false
  /\ bool_decide (NoDup (ids (movies merged))) = false.
Proof. vm_compute. repeat split; reflexivity. Qed.



Lemma ids_NoDup_inj (l : list Item) (x y : Item) :
  NoDup (ids l) -> x ∈ l -> y ∈ l -> id x = id y -> x = y.
Proof.
  unfold ids. induction l as [|z l IH]; cbn [fmap list_fmap].
  - intros _ H. by apply elem_of_nil in H.
  - intros [Hz Hl]%NoDup_cons [->|Hx]%elem_of_cons [->|Hy]%elem_of_cons Heq.
    + done.
    + exfalso. apply Hz. rewrite Heq. by apply list_elem_of_fmap_2.
    + exfalso. apply Hz. rewrite <- Heq. by apply list_elem_of_fmap_2.
    + by apply IH.
Qed.

(** C10 (as amended): when both ids are found, the collection keeps its
    length and its ids in order; every item under the winner's id gets the
    new rating [newA], one more [played] and one more [wins], every item
    under the loser's id gets [newB], one more [played] and one more
    [losses], no other field and no item under another id changes; when
    the ids of the collection are pairwise distinct, every item other than
    the two found ones is unchanged; and one entry is put in front of the
    history, with the elos that the two found items (the first under each
    id) had before the update as [prevA]/[prevB] and the results of
    [updateElo] on them as [newA]/[newB].  When one of the ids is not
    found the store stays as it is. *)
Theorem handleChoice_effect (pow_approx : number -> number -> number)
    (w l now : string) (rnd : Random) (s : Store) :
  let s' := handleChoice pow_approx w l now rnd s in
  match List.find (fun m => bool_decide (id m = w)) (movies s),
        List.find (fun m => bool_decide (id m = l)) (movies s) with
  | Some a, Some b =>
      let r := updateElo pow_approx (elo a) (elo b) 1 None in
      length (movies s') = length (movies s)
      /\ ids (movies s') = ids (movies s)
      /\ (forall i m, movies s !! i = Some m ->
            exists m',
              movies s' !! i = Some m'
              /\ id m' = id m /\ title m' = title m /\ year m' = year m
              /\ rating m' = rating m
              /\ (id m = w ->
                  elo m' = fst r /\ played m' = (played m + 1)%nat
                  /\ wins m' = (wins m + 1)%nat /\ losses m' = losses m)
              /\ (id m <> w -> id m = l ->
                  elo m' = snd r /\ played m' = (played m + 1)%nat
                  /\ wins m' = wins m /\ losses m' = (losses m + 1)%nat)
              /\ (id m <> w -> id m <> l -> m' = m))
      /\ (NoDup (ids (movies s)) ->
          forall i m, movies s !! i = Some m -> m <> a -> m <> b ->
            movies s' !! i = Some m)
      /\ history s'
         = {| time := now; winner := w; loser := l;
              prevA := elo a; prevB := elo b;
              newA := fst r; newB := snd r |} :: history s
  | _, _ => s' = s
  end.
Proof.
  cbn zeta.
  destruct (List.find (fun m => bool_decide (id m = w)) (movies s)) as [a|] eqn:Ha;
    [|by apply handleChoice_absent; left].
  destruct (List.find (fun m => bool_decide (id m = l)) (movies s)) as [b|] eqn:Hb;
    [|by apply handleChoice_absent; right].
  destruct (handleChoice_found pow_approx w l now rnd s a b Ha Hb) as [-> ->].
  destruct (find_id_Some _ _ _ Ha) as [Hina Hida].
  destruct (find_id_Some _ _ _ Hb) as [Hinb Hidb].
  split; [apply length_fmap|]. split; [apply apply_result_ids|].
  split; [|split; [|by rewrite Hida, Hidb]].
  - intros i m Hm. eexists. split; [by rewrite list_lookup_fmap, Hm|].
    unfold apply_result. rewrite Hida, Hidb.
    repeat split; intros; repeat case_decide; done.
  - intros Hnd i m Hm Hma Hmb. rewrite list_lookup_fmap, Hm. cbn. f_equal.
    assert (Hin : m ∈ movies s) by (by eapply list_elem_of_lookup_2).
    unfold apply_result. repeat case_decide; [| |done].
    + destruct Hma. by apply (ids_NoDup_inj (movies s)).
    + destruct Hmb. by apply (ids_NoDup_inj (movies s)).
Qed.

(** C10, on a run: A (1600) beats B (1200) in a collection of three. *)
Lemma handleChoice_effect_on_a_run :
  let batch : list Row :=
    [[("Title", "A"); ("Year", "2001"); ("Rating", "4.5")];
     [("Title", "B"); ("Year", "2002"); ("Rating", "2.5")];
     [("Title", "C"); ("Year", "2003"); ("Rating", "")]] in
  let rnd : Random := fun i => of_ratio (Z.of_nat (i * 7 mod 10)) 10 in
  let now := "2024-01-01T00:00:00.000Z" in
  let s := run sample_pow [ImportComplete batch false rnd] in
  let s' := handleChoice sample_pow "A|2001" "B|2002" now rnd s in
  map (fun m => (id m, elo m, played m, wins m, losses m)) (movies s')
  = [("A|2001", 1603%float, 1, 1, 0); ("B|2002", 1197%float, 1, 0, 1);
     ("C|2003", 1200%float, 0, 0, 0)]%nat
  /\ history s'
     = [{| time := now; winner := "A|2001"; loser := "B|2002";
           prevA := 1600; prevB := 1200; newA := 1603; newB := 1197 |}]
  /\ handleChoice sample_pow "A|2001" "Z|1999" now rnd s = s.
Proof.
  intros batch rnd now s s'.
  split; [vm_compute; reflexivity|]. split; [vm_compute; reflexivity|].
  pose proof (handleChoice_effect sample_pow "A|2001" "Z|1999" now rnd s) as H.
  vm_compute in H. vm_compute. exact H.
Defined.

(** C10 (the claim as stated fails): a fresh import of the rows
    X,2001,4.5 / X,2001,1 / Y,2002,2.5 stores two items under the id
    X|2001, with the elos 1600 and 900.  Resolving X|2001 over Y|2002 then
    modifies all three items of the collection, not two: the second X,
    which is neither of the two items found, goes from 900 to 1603, the
    rating computed from the first X's 1600, and gets a game and a win. *)
Lemma handleChoice_changes_every_item_of_an_id :
  let batch : list Row :=
    [[("Title", "X"); ("Year", "2001"); ("Rating", "4.5")];
     [("Title", "X"); ("Year", "2001"); ("Rating", "1")];
     [("Title", "Y"); ("Year", "2002"); ("Rating", "2.5")]] in
  let rnd : Random := fun i => of_ratio (Z.of_nat (i * 7 mod 10)) 10 in
  let now := "2024-01-01T00:00:00.000Z" in
  let s := run sample_pow [ImportComplete batch false rnd] in
  let s' := handleChoice sample_pow "X|2001" "Y|2002" now rnd s in
  let view (m : Item) := (id m, elo m, played m, wins m, losses m) in
  view <$> movies s
  = [("X|2001", 1600%float, 0, 0, 0); ("X|2001", 900%float, 0, 0, 0);
     ("Y|2002", 1200%float, 0, 0, 0)]%nat
  /\ List.find (fun m => bool_decide (id m = "X|2001")) (movies s)
     = movies s !! 0%nat
  /\ List.find (fun m => bool_decide (id m = "Y|2002")) (movies s)
     = movies s !! 2%nat
  /\ view <$> movies s'
     = [("X|2001", 1603%float, 1, 1, 0); ("X|2001", 1603%float, 1, 1, 0);
        ("Y|2002", 1197%float, 1, 0, 1)]%nat
  /\ view <$> movies s !! 1%nat = Some ("X|2001", 900%float, 0, 0, 0)%nat
  /\ view <$> movies s' !! 1%nat = Some ("X|2001", 1603%float, 1, 1, 0)%nat
  /\ updateElo sample_pow 1600 1200 1 None = (1603, 1197)%float
  /\ history s'
     = [{| time := now; winner := "X|2001"; loser := "Y|2002";
           prevA := 1600; prevB := 1200; newA := 1603; newB := 1197 |}].
Proof. cbn zeta. repeat split; vm_compute; reflexivity. Qed.

(** ** The order of Numbers, on the specification of binary64 *)

Section SpecOrder.

Local Open Scope Z_scope.

Lemma digits2_pos_bounds (p : positive) :
  2 ^ (Zpos (digits2_pos p) - 1) <= Zpos p < 2 ^ Zpos (digits2_pos p).
Proof.
  induction p as [p IH|p IH|]; cbn [digits2_pos].
  - rewrite Pos2Z.inj_succ.
    replace (Z.succ (Zpos (digits2_pos p)) - 1) with (Z.succ (Zpos (digits2_pos p) - 1)) by lia.
    rewrite !Z.pow_succ_r by lia. lia.
  - rewrite Pos2Z.inj_succ.
    replace (Z.succ (Zpos (digits2_pos p)) - 1) with (Z.succ (Zpos (digits2_pos p) - 1)) by lia.
    rewrite !Z.pow_succ_r by lia. lia.
  - cbn. lia.
Qed.

Lemma half_xI (p : positive) : Zpos p~1 / 2 = Zpos p.
Proof.
  symmetry. apply Z.div_unique with (r := 1); [lia|].
  rewrite Pos2Z.inj_xI. reflexivity.
Qed.

Lemma half_xO (p : positive) : Zpos p~0 / 2 = Zpos p.
Proof.
  symmetry. apply Z.div_unique with (r := 0); [lia|].
  rewrite Pos2Z.inj_xO. lia.
Qed.

Lemma shr_m_shr_1 (mrs : shr_record) :
  0 <= shr_m mrs -> shr_m (shr_1 mrs) = shr_m mrs / 2.
Proof.
  destruct mrs as [m r s]. cbn [shr_m]. intros Hm.
  destruct m as [|[p|p|]|p]; [| | | |lia];
    destruct r, s; cbn [shr_1 shr_m orb];
    rewrite ?half_xI, ?half_xO; reflexivity.
Qed.

Lemma shr_m_iter (n : positive) (mrs : shr_record) :
  0 <= shr_m mrs ->
  shr_m (iter_pos shr_1 n mrs) = shr_m mrs / 2 ^ Zpos n.
Proof.
  revert mrs. induction n as [n IH|n IH|]; intros mrs Hm; cbn [iter_pos].
  - assert (H1 : 0 <= shr_m (shr_1 mrs)).
    { rewrite shr_m_shr_1 by done. apply Z.div_pos; lia. }
    assert (H2 : 0 <= shr_m (iter_pos shr_1 n (shr_1 mrs))).
    { rewrite IH by done. apply Z.div_pos; [done|]. apply Z.pow_pos_nonneg; lia. }
    rewrite IH, IH, shr_m_shr_1 by done.
    rewrite !Z.div_div by (try apply Z.pow_pos_nonneg; lia).
    f_equal. rewrite Pos2Z.inj_xI, <- Z.pow_add_r, <- Z.pow_succ_r by lia.
    f_equal. lia.
  - assert (H2 : 0 <= shr_m (iter_pos shr_1 n mrs)).
    { rewrite IH by done. apply Z.div_pos; [done|]. apply Z.pow_pos_nonneg; lia. }
    rewrite IH, IH by done.
    rewrite !Z.div_div by (try apply Z.pow_pos_nonneg; lia).
    f_equal. rewrite Pos2Z.inj_xO, <- Z.pow_add_r by lia.
    f_equal. lia.
  - rewrite shr_m_shr_1 by done. reflexivity.
Qed.

Lemma shr_m_of_loc (m : Z) (l : location) : shr_m (shr_record_of_loc m l) = m.
Proof. destruct l as [|[]]; reflexivity. Qed.

Lemma fexp_val e : fexp prec emax e = Z.max (e - 53) (-1074).
Proof. reflexivity. Qed.

(** Shifting to the exponent of the format keeps a positive mantissa positive. *)
Lemma shr_fexp_pos (m e : Z) (l : location) :
  0 < m -> -1074 <= e ->
  0 < shr_m (fst (shr_fexp prec emax m e l)) /\ -1074 <= snd (shr_fexp prec emax m e l).
Proof.
  intros Hm He. unfold shr_fexp, shr. rewrite fexp_val.
  destruct m as [|p|p]; try lia. cbn [Zdigits2].
  pose proof (digits2_pos_bounds p) as [Hlo _].
  set (d := Zpos (digits2_pos p)) in *.
  destruct (Z.max (d + e - 53) (-1074) - e) as [|n|n] eqn:Hn; cbn [fst snd];
    rewrite ?shr_m_of_loc; try lia.
  split; [|lia]. rewrite shr_m_iter by (rewrite shr_m_of_loc; lia).
  rewrite shr_m_of_loc. apply Z.div_str_pos. split; [apply Z.pow_pos_nonneg; lia|].
  etransitivity; [|exact Hlo]. apply Z.pow_le_mono_r; lia.
Qed.

Lemma round_nearest_even_ge (m : Z) (l : location) : m <= round_nearest_even m l.
Proof. destruct l as [|[]]; cbn; try lia. destruct (Z.even m); lia. Qed.

(** Rounding a positive mantissa at an exponent of the format gives a
    finite or infinite result of the requested sign. *)
Lemma binary_round_aux_sign (sx : bool) (m e : Z) (l : location) :
  0 < m -> -1074 <= e ->
  match binary_round_aux prec emax sx m e l with
  | S754_finite s _ _ | S754_infinity s => s = sx
  | _ => False
  end.
Proof.
  intros Hm He. unfold binary_round_aux.
  destruct (shr_fexp_pos m e l Hm He) as [H1 H1'].
  destruct (shr_fexp prec emax m e l) as [mrs' e']. cbn [fst snd] in H1, H1'.
  pose proof (round_nearest_even_ge (shr_m mrs') (loc_of_shr_record mrs')) as Hr.
  set (m2 := round_nearest_even (shr_m mrs') (loc_of_shr_record mrs')) in *.
  assert (Hm2 : 0 < m2) by lia.
  destruct (shr_fexp_pos m2 e' loc_Exact Hm2 H1') as [H2 _].
  destruct (shr_fexp prec emax m2 e' loc_Exact) as [mrs'' e'']. cbn [fst] in H2.
  destruct (shr_m mrs'') as [|p|p]; try lia.
  destruct (e'' <=? emax - prec); reflexivity.
Qed.

Lemma shl_align_snd (mx : positive) (ex ex' : Z) :
  -1074 <= ex -> -1074 <= ex' -> -1074 <= snd (shl_align mx ex ex').
Proof. intros. unfold shl_align. destruct (ex' - ex); cbn [snd]; lia. Qed.

Lemma binary_round_sign (sx : bool) (mx : positive) (ex : Z) :
  -1074 <= ex ->
  match binary_round prec emax sx mx ex with
  | S754_finite s _ _ | S754_infinity s => s = sx
  | _ => False
  end.
Proof.
  intros He. unfold binary_round.
  pose proof (shl_align_snd mx ex (fexp prec emax (Zpos (digits2_pos mx) + ex)) He) as Hs.
  destruct (shl_align mx ex _) as [mz ez]. cbn [snd] in Hs.
  apply binary_round_aux_sign; [lia|]. apply Hs. rewrite fexp_val. lia.
Qed.

(** The sign of a normalised integer is the sign of the integer. *)
Lemma binary_normalize_compare (z e : Z) :
  -1074 <= e ->
  SFcompare (binary_normalize prec emax z e false) (S754_zero false) = Some (z ?= 0)
  /\ SFcompare (S754_zero false) (binary_normalize prec emax z e false) = Some (0 ?= z).
Proof.
  intros He. destruct z as [|p|p]; cbn [binary_normalize]; [done| |].
  - pose proof (binary_round_sign false p e He) as H.
    destruct (binary_round prec emax false p e); try done; subst; done.
  - pose proof (binary_round_sign true p e He) as H.
    destruct (binary_round prec emax true p e); try done; subst; done.
Qed.

Lemma iter_xO_val (m d : positive) : Zpos (Pos.iter xO m d) = Zpos m * 2 ^ Zpos d.
Proof.
  induction d as [|d IH] using Pos.peano_ind.
  - cbn [Pos.iter]. rewrite Pos2Z.inj_xO. lia.
  - rewrite Pos.iter_succ, Pos2Z.inj_xO, IH, Pos2Z.inj_succ, Z.pow_succ_r by lia. lia.
Qed.

Lemma shl_align_fst (mx : positive) (ex ez : Z) :
  ez <= ex -> Zpos (fst (shl_align mx ex ez)) = Zpos mx * 2 ^ (ex - ez).
Proof.
  intros H. unfold shl_align. destruct (ez - ex) as [|d|d] eqn:Hd; cbn [fst]; try lia.
  - replace (ex - ez) with 0 by lia. lia.
  - rewrite iter_xO_val. f_equal. f_equal. lia.
Qed.

Lemma bounded_facts (m : positive) (e : Z) :
  bounded prec emax m e = true ->
  -1074 <= e /\ Zpos m < 9007199254740992
  /\ (-1074 < e -> 4503599627370496 <= Zpos m).
Proof.
  unfold bounded, canonical_mantissa. intros [H _]%andb_prop.
  apply Z.eqb_eq in H. rewrite fexp_val in H.
  pose proof (digits2_pos_bounds m) as [Hlo Hhi].
  set (d := Zpos (digits2_pos m)) in *.
  assert (Hd : d <= 53) by lia. split; [lia|]. split.
  - eapply Z.lt_le_trans; [exact Hhi|].
    change 9007199254740992 with (2 ^ 53). apply Z.pow_le_mono_r; lia.
  - intros He. assert (d = 53) as Hd53 by lia. rewrite Hd53 in Hlo. exact Hlo.
Qed.

Lemma pow2_ge_2 (k : Z) : 0 < k -> 2 <= 2 ^ k.
Proof.
  intros Hk. change 2 with (2 ^ 1) at 1. apply Z.pow_le_mono_r; lia.
Qed.

(** Comparing two canonical finite numbers is comparing their mantissas
    aligned on the smaller exponent. *)
Lemma finite_compare (sx sy : bool) (mx my : positive) (ex ey : Z) :
  bounded prec emax mx ex = true -> bounded prec emax my ey = true ->
  SFcompare (S754_finite sx mx ex) (S754_finite sy my ey)
  = Some (cond_Zopp sx (Zpos (fst (shl_align mx ex (Z.min ex ey))))
          - cond_Zopp sy (Zpos (fst (shl_align my ey (Z.min ex ey)))) ?= 0).
Proof.
  intros Hx Hy.
  destruct (bounded_facts mx ex Hx) as (Hex & Hmx & Hnx).
  destruct (bounded_facts my ey Hy) as (Hey & Hmy & Hny).
  rewrite !shl_align_fst by lia.
  assert (HX : 0 < Zpos mx * 2 ^ (ex - Z.min ex ey))
    by (apply Z.mul_pos_pos; [lia | apply Z.pow_pos_nonneg; lia]).
  assert (HY : 0 < Zpos my * 2 ^ (ey - Z.min ex ey))
    by (apply Z.mul_pos_pos; [lia | apply Z.pow_pos_nonneg; lia]).
  cbn [SFcompare]. f_equal. symmetry.
  destruct (Z.compare_spec ex ey) as [He|He|He].
  - subst ey. rewrite Z.min_id, Z.sub_diag, Z.pow_0_r, !Z.mul_1_r in *.
    rewrite Pos.compare_cont_spec. cbn [Pos.switch_Eq].
    change (Pos.compare mx my) with (Zpos mx ?= Zpos my).
    destruct sx, sy; cbn [cond_Zopp];
      destruct (Z.compare_spec (Zpos mx) (Zpos my)); cbn [CompOpp];
      first [apply Z.compare_eq_iff | apply Z.compare_lt_iff | apply Z.compare_gt_iff];
      lia.
  - rewrite Z.min_l, Z.sub_diag, Z.pow_0_r, Z.mul_1_r in * by lia.
    pose proof (pow2_ge_2 (ey - ex) ltac:(lia)) as Hk.
    specialize (Hny ltac:(lia)).
    assert (Zpos mx < Zpos my * 2 ^ (ey - ex)) by nia.
    destruct sx, sy; cbn [cond_Zopp];
      first [apply Z.compare_lt_iff | apply Z.compare_gt_iff]; lia.
  - rewrite Z.min_r in * by lia.
    rewrite (Z.sub_diag ey), Z.pow_0_r, Z.mul_1_r in *.
    pose proof (pow2_ge_2 (ex - ey) ltac:(lia)) as Hk.
    specialize (Hnx ltac:(lia)).
    assert (Zpos my < Zpos mx * 2 ^ (ex - ey)) by nia.
    destruct sx, sy; cbn [cond_Zopp];
      first [apply Z.compare_lt_iff | apply Z.compare_gt_iff]; lia.
Qed.

(** The sign of a difference decides the comparison. *)
Lemma SFsub_ltb (x y : spec_float) :
  valid_binary prec emax x = true -> valid_binary prec emax y = true ->
  SFltb (SFsub prec emax x y) (S754_zero false) = SFltb x y
  /\ SFltb (S754_zero false) (SFsub prec emax x y) = SFltb y x.
Proof.
  intros Hx Hy.
  destruct x as [sx|sx| |sx mx ex], y as [sy|sy| |sy my ey];
    try (split; reflexivity);
    try (destruct sx; split; reflexivity);
    try (destruct sy; split; reflexivity);
    try (destruct sx, sy; split; reflexivity).
  cbn [valid_binary] in Hx, Hy. cbn [SFsub]. unfold SFltb.
  destruct (bounded_facts mx ex Hx) as (Hex & _).
  destruct (bounded_facts my ey Hy) as (Hey & _).
  rewrite (finite_compare sx sy mx my ex ey Hx Hy).
  rewrite (finite_compare sy sx my mx ey ex Hy Hx), (Z.min_comm ey ex).
  set (zx := cond_Zopp sx _). set (zy := cond_Zopp sy _).
  destruct (binary_normalize_compare (zx - zy) (Z.min ex ey) ltac:(lia)) as [-> ->].
  split; [reflexivity|].
  destruct (Z.compare_spec 0 (zx - zy)), (Z.compare_spec (zy - zx) 0); done || lia.
Qed.

Lemma SFltb_rank (x y : spec_float) :
  x <> S754_nan -> y <> S754_nan ->
  SFltb x y = true <-> rank_lt (rank x) (rank y).
Proof.
  intros Hx Hy. unfold SFltb, rank_lt.
  destruct x as [sx|sx| |sx mx ex], y as [sy|sy| |sy my ey]; try congruence;
    try (destruct sx, sy; cbn; split; intros; (discriminate || lia || reflexivity)).
  cbn [SFcompare rank]. rewrite Pos.compare_cont_spec. cbn [Pos.switch_Eq].
  change (Pos.compare mx my) with (Zpos mx ?= Zpos my).
  destruct sx, sy; cbn [fst snd];
    destruct (Z.compare_spec ex ey), (Z.compare_spec (Zpos mx) (Zpos my));
    cbn [CompOpp]; split; intros; (discriminate || lia || reflexivity).
Qed.

Lemma SFltb_not_nan (x y : spec_float) :
  SFltb x y = true -> x <> S754_nan /\ y <> S754_nan.
Proof. destruct x, y; cbn; (discriminate || done). Qed.

Lemma SFltb_irrefl (x : spec_float) : SFltb x x = false.
Proof.
  destruct (SFltb x x) eqn:H; [|done].
  destruct (SFltb_not_nan _ _ H) as [Hx _].
  apply SFltb_rank in H; [|done..]. unfold rank_lt in H. lia.
Qed.

Lemma SFltb_trans (x y z : spec_float) :
  SFltb x y = true -> SFltb y z = true -> SFltb x z = true.
Proof.
  intros Hxy Hyz.
  destruct (SFltb_not_nan _ _ Hxy) as [Hx Hy].
  destruct (SFltb_not_nan _ _ Hyz) as [_ Hz].
  apply SFltb_rank in Hxy, Hyz; [|done..]. apply SFltb_rank; [done..|].
  unfold rank_lt in *. lia.
Qed.

Lemma SFltb_neg_trans (x y z : spec_float) :
  y <> S754_nan ->
  SFltb x y = false -> SFltb y z = false -> SFltb x z = false.
Proof.
  intros Hy Hxy Hyz. destruct (SFltb x z) eqn:Hxz; [|done].
  destruct (SFltb_not_nan _ _ Hxz) as [Hx Hz].
  apply SFltb_rank in Hxz; [|done..].
  assert (Hxy' : ~ rank_lt (rank x) (rank y))
    by (rewrite <- SFltb_rank by done; congruence).
  assert (Hyz' : ~ rank_lt (rank y) (rank z))
    by (rewrite <- SFltb_rank by done; congruence).
  unfold rank_lt in *. lia.
Qed.

Lemma SFeqb_refl (x : spec_float) : x <> S754_nan -> SFeqb x x = true.
Proof.
  intros Hx. unfold SFeqb.
  destruct x as [s|s| |s m e]; try congruence; try (destruct s; reflexivity).
  cbn [SFcompare]. rewrite Z.compare_refl, Pos.compare_cont_spec, Pos.compare_refl.
  destruct s; reflexivity.
Qed.

End SpecOrder.

(** ** The order of Numbers, on primitive floats *)

Section NumberOrder.

Import FloatAxioms FloatOps.
Local Open Scope float_scope.

Lemma Prim2SF_zero : Prim2SF 0 = S754_zero false.
Proof. reflexivity. Qed.

Lemma is_nan_spec (x : float) : is_nan x = false <-> Prim2SF x <> S754_nan.
Proof.
  unfold is_nan. rewrite eqb_spec. split.
  - intros H Hn. rewrite Hn in H. discriminate H.
  - intros H. by rewrite SFeqb_refl.
Qed.

(** [x - y < 0] exactly when [x < y]. *)
Lemma sub_ltb_zero (x y : float) : (x - y <? 0) = (x <? y).
Proof.
  rewrite !ltb_spec, sub_spec, Prim2SF_zero.
  apply SFsub_ltb; apply Prim2SF_valid.
Qed.

(** [0 < x - y] exactly when [y < x]. *)
Lemma zero_ltb_sub (x y : float) : (0 <? x - y) = (y <? x).
Proof.
  rewrite !ltb_spec, sub_spec, Prim2SF_zero.
  apply SFsub_ltb; apply Prim2SF_valid.
Qed.

Lemma ltb_irrefl (x : float) : (x <? x) = false.
Proof. rewrite ltb_spec. apply SFltb_irrefl. Qed.

Lemma ltb_trans (x y z : float) :
  (x <? y) = true -> (y <? z) = true -> (x <? z) = true.
Proof. rewrite !ltb_spec. apply SFltb_trans. Qed.

Lemma ltb_neg_trans (x y z : float) :
  is_nan y = false ->
  (x <? y) = false -> (y <? z) = false -> (x <? z) = false.
Proof. rewrite !ltb_spec, is_nan_spec. apply SFltb_neg_trans. Qed.

Lemma is_finite_spec (x : float) :
  is_finite x = true ->
  match Prim2SF x with
  | S754_zero _ | S754_finite _ _ _ => True
  | _ => False
  end.
Proof.
  unfold is_finite, is_infinity. rewrite eqb_spec, abs_spec.
  intros H%negb_true_iff%orb_false_elim. destruct H as [Hn Hi].
  apply is_nan_spec in Hn.
  destruct (Prim2SF x) as [s|s| |s m e]; try done.
Qed.

(** The distance of two finite numbers is a number. *)
Lemma abs_sub_not_nan (a b : float) :
  is_finite a = true -> is_finite b = true -> is_nan (abs (a - b)) = false.
Proof.
  intros Ha%is_finite_spec Hb%is_finite_spec.
  apply is_nan_spec. rewrite abs_spec, sub_spec.
  pose proof (Prim2SF_valid a) as Va. pose proof (Prim2SF_valid b) as Vb.
  destruct (Prim2SF a) as [sa|sa| |sa ma ea], (Prim2SF b) as [sb|sb| |sb mb eb];
    try done; try (destruct sa, sb; done).
  cbn [valid_binary] in Va, Vb.
  destruct (bounded_facts ma ea Va) as (Hea & _).
  destruct (bounded_facts mb eb Vb) as (Heb & _).
  unfold SF64sub. cbn [SFsub].
  set (z := (_ - _)%Z).
  destruct (binary_normalize_compare z (Z.min ea eb) ltac:(lia)) as [H _].
  destruct (binary_normalize prec emax z (Z.min ea eb) false); done.
Qed.

End NumberOrder.

(** ** Sorting *)

Section SortFacts.

Context {A : Type}.
Variable comparefn : A -> A -> number.

Lemma elem_of_sort_insert (x y : A) (l : list A) :
  y ∈ sort_insert comparefn x l <-> y = x \/ y ∈ l.
Proof.
  induction l as [|z l IH]; cbn [sort_insert].
  - rewrite list_elem_of_singleton, elem_of_nil. tauto.
  - destruct (sorts_after comparefn x z).
    + rewrite !elem_of_cons, IH. tauto.
    + rewrite !elem_of_cons. tauto.
Qed.

Lemma elem_of_array_sort (y : A) (l : list A) :
  y ∈ array_sort comparefn l <-> y ∈ l.
Proof.
  induction l as [|x l IH]; cbn [array_sort]; [done|].
  rewrite elem_of_sort_insert, elem_of_cons, IH. tauto.
Qed.

Lemma consistent_on_cons (x : A) (l : list A) :
  consistent_on comparefn (x :: l) -> consistent_on comparefn l.
Proof. intros H a b c Ha Hb Hc. apply H; by right. Qed.

(** The head of the sorted array is the first element that no element
    sorts before. *)
Lemma array_sort_head (l : list A) :
  l <> [] -> consistent_on comparefn l ->
  exists pre best post rest,
    l = (pre ++ best :: post)%list
    /\ array_sort comparefn l = best :: rest
    /\ (forall q, q ∈ l -> sorts_before comparefn q best = false)
    /\ (forall q, q ∈ pre -> sorts_before comparefn best q = true).
Proof.
  induction l as [|x l IH]; [done|]. intros _ Hc.
  destruct l as [|y l'].
  - exists [], x, [], []. repeat split.
    + intros q ->%list_elem_of_singleton.
      assert (Hx : x ∈ [x]) by by left.
      by destruct (Hc x x x Hx Hx Hx) as (_ & Hirr & _).
    + intros q Hq. by apply elem_of_nil in Hq.
  - destruct IH as (pre & b & post & rest & El & Hsort & Hmin & Hpre);
      [done | by eapply consistent_on_cons|].
    assert (Hb : b ∈ x :: y :: l').
    { right. rewrite El. apply elem_of_app. right. by left. }
    assert (Hx : x ∈ x :: y :: l') by by left.
    change (array_sort comparefn (x :: y :: l'))
      with (sort_insert comparefn x (array_sort comparefn (y :: l'))).
    rewrite Hsort. cbn [sort_insert].
    destruct (Hc x b x Hx Hb Hx) as (Hanti & Hirr & Htr & _).
    destruct (sorts_after comparefn x b) eqn:Hab.
    + exists (x :: pre), b, post, (sort_insert comparefn x rest).
      split; [by rewrite El|]. split; [done|]. split.
      * intros q [->|Hq]%elem_of_cons; [|by apply Hmin].
        destruct (sorts_before comparefn x b) eqn:Hxb; [|done].
        rewrite <- Hirr. symmetry. apply Htr; [done | by rewrite <- Hanti].
      * intros q [->|Hq]%elem_of_cons; [by rewrite <- Hanti | by apply Hpre].
    + exists [], x, (y :: l'), (b :: rest).
      split; [done|]. split; [done|]. split.
      * intros q [->|Hq]%elem_of_cons; [done|].
        assert (Hq' : q ∈ x :: y :: l') by by right.
        destruct (Hc q b x Hq' Hb Hx) as (_ & _ & _ & Hneg).
        apply Hneg; [by apply Hmin | by rewrite <- Hanti].
      * intros q Hq. by apply elem_of_nil in Hq.
Qed.

End SortFacts.

(** ** Lists of draws *)

Lemma omap_split {A B} (f : A -> option B) (l : list A) pre b post :
  omap f l = (pre ++ b :: post)%list ->
  exists l1 x l2,
    l = (l1 ++ x :: l2)%list /\ omap f l1 = pre /\ f x = Some b
    /\ omap f l2 = post.
Proof.
  revert pre. induction l as [|a l IH]; intros pre H; cbn in H.
  - by destruct pre.
  - destruct (f a) as [c|] eqn:Hfa.
    + destruct pre as [|p pre]; cbn in H; injection H as -> H.
      * exists [], a, l. done.
      * destruct (IH pre H) as (l1 & x & l2 & -> & <- & Hx & <-).
        exists (a :: l1), x, l2. cbn. by rewrite Hfa.
    + destruct (IH pre H) as (l1 & x & l2 & -> & <- & Hx & <-).
      exists (a :: l1), x, l2. cbn. by rewrite Hfa.
Qed.

Lemma omap_none {A B} (f : A -> option B) (l : list A) :
  (forall x, x ∈ l -> f x = None) -> omap f l = [].
Proof.
  induction l as [|a l IH]; intros H; [done|]. cbn.
  rewrite (H a) by by left. apply IH. intros x Hx. apply H. by right.
Qed.

Lemma seq_split (l1 l2 : list nat) (x n : nat) :
  seq 0 n = (l1 ++ x :: l2)%list -> l1 = seq 0 x /\ (x < n)%nat.
Proof.
  intros H.
  assert (Hx : seq 0 n !! length l1 = Some x)
    by (rewrite H; by apply list_lookup_middle).
  apply lookup_seq in Hx as [-> Hlt]. split; [|lia].
  transitivity (take (length l1) (seq 0 n)).
  - by rewrite H, take_app_length.
  - rewrite take_seq. f_equal. lia.
Qed.

Lemma array_at_elem {A} (arr : list A) (x : number) (a : A) :
  array_at arr x = Some a -> a ∈ arr.
Proof.
  unfold array_at. destruct (to_Z x) as [z|]; [|done].
  destruct (0 <=? z)%Z; [|done]. apply list_elem_of_lookup_2.
Qed.

Lemma draw_Some (movies : list Item) (u v : number) (a b : Item) (d : number) :
  draw movies u v = Some (a, b, d) ->
  a ∈ movies /\ b ∈ movies /\ id a <> id b
  /\ d = Math_abs (elo a - elo b)%float.
Proof.
  unfold draw.
  destruct (array_at movies (Math_floor _)) as [a'|] eqn:Ha; [|done].
  destruct (array_at movies (Math_floor (v * _)%float)) as [b'|] eqn:Hb; [|done].
  case_decide; [done|]. intros [= <- <- <-].
  split; [by eapply array_at_elem|]. split; [by eapply array_at_elem|].
  split; [done | reflexivity].
Qed.

Lemma elem_of_collect_picks (movies : list Item) (rnd : Random) (p : Pick) :
  p ∈ collect_picks movies rnd
  <-> exists i, (i < sampleSize movies)%nat /\ nth_draw movies rnd i = Some p.
Proof.
  unfold collect_picks. rewrite list_elem_of_omap. split.
  - intros (i & Hi%elem_of_seq & Hp). exists i. split; [lia | done].
  - intros (i & Hi & Hp). exists i. split; [apply elem_of_seq; lia | done].
Qed.

(** ** Pair selector *)

(** The comparator of [pickPair] compares the recorded differences. *)
Lemma sorts_before_pick (p q : Pick) :
  sorts_before pick_compare p q = (pick_diff p <? pick_diff q)%float.
Proof. apply sub_ltb_zero. Qed.

Lemma sorts_after_pick (p q : Pick) :
  sorts_after pick_compare p q = (pick_diff q <? pick_diff p)%float.
Proof. apply zero_ltb_sub. Qed.

(** It is a consistent comparator on picks whose differences are numbers. *)
Lemma pick_compare_consistent (picks : list Pick) :
  (forall p, p ∈ picks -> is_nan (pick_diff p) = false) ->
  consistent_on pick_compare picks.
Proof.
  intros Hnan x y z Hx Hy Hz. unfold consistent_at.
  rewrite sorts_after_pick, !sorts_before_pick.
  split; [reflexivity|]. split; [apply ltb_irrefl|].
  split; [apply ltb_trans | apply ltb_neg_trans; by apply Hnan].
Qed.

(** Finite elos give differences that are numbers. *)
Lemma collect_picks_not_nan (movies : list Item) (rnd : Random) (p : Pick) :
  Forall (fun m => is_finite (elo m) = true) movies ->
  p ∈ collect_picks movies rnd -> is_nan (pick_diff p) = false.
Proof.
  intros Hfin (i & _ & Hi)%elem_of_collect_picks.
  destruct p as [[a b] d]. apply draw_Some in Hi as (Ha & Hb & _ & ->).
  rewrite Forall_forall in Hfin. apply abs_sub_not_nan; by apply Hfin.
Qed.

(** C9 (as amended): with fewer than two items [pickPair] selects no
    pair.  With two or more it always selects two items of the collection;
    when no draw is retained these are the first two items, in the
    collection's order; when a draw is retained (its two items have
    distinct ids) and the elos of the collection are finite Numbers, the
    selected pair is a retained draw such that no retained draw has a
    smaller recorded difference [|a.elo - b.elo|] and every retained draw
    made before it has a strictly larger one: the first draw of minimal
    difference. *)
Theorem pickPair_selection (movies : list Item) (rnd : Random) :
  ((length movies < 2)%nat -> pickPair movies rnd = None)
  /\ ((2 <= length movies)%nat ->
      (exists a b, pickPair movies rnd = Some (a, b) /\ a ∈ movies /\ b ∈ movies)
      /\ ((forall i, (i < sampleSize movies)%nat -> nth_draw movies rnd i = None) ->
          exists a b rest,
            movies = a :: b :: rest /\ pickPair movies rnd = Some (a, b))
      /\ ((exists i, (i < sampleSize movies)%nat
                     /\ is_Some (nth_draw movies rnd i)) ->
          Forall (fun m => is_finite (elo m) = true) movies ->
          exists i a b d,
            (i < sampleSize movies)%nat
            /\ nth_draw movies rnd i = Some (a, b, d)
            /\ id a <> id b
            /\ d = Math_abs (elo a - elo b)%float
            /\ pickPair movies rnd = Some (a, b)
            /\ (forall j q, (j < sampleSize movies)%nat ->
                  nth_draw movies rnd j = Some q ->
                  (pick_diff q <? d)%float = false)
            /\ (forall j q, (j < i)%nat ->
                  nth_draw movies rnd j = Some q ->
                  (d <? pick_diff q)%float = true))).
Proof.
  split.
  { intros Hlen. unfold pickPair.
    by rewrite (proj2 (Nat.ltb_lt _ _) Hlen). }
  intros Hlen. unfold pickPair.
  rewrite (proj2 (Nat.ltb_ge _ _) Hlen). cbn zeta.
  split; [|split].
  - destruct (collect_picks movies rnd) as [|p ps] eqn:Hp.
    + destruct movies as [|a [|b rest]]; cbn in Hlen; try lia.
      exists a, b. cbn. split; [done|]. split; [by left | right; by left].
    + destruct (array_sort pick_compare (p :: ps)) as [|best rest] eqn:Hs.
      * assert (Hin : p ∈ array_sort pick_compare (p :: ps))
          by (apply elem_of_array_sort; by left).
        rewrite Hs in Hin. by apply elem_of_nil in Hin.
      * assert (Hin : best ∈ collect_picks movies rnd).
        { rewrite Hp. apply (elem_of_array_sort pick_compare).
          rewrite Hs. by left. }
        apply elem_of_collect_picks in Hin as (i & _ & Hi).
        destruct best as [[a b] d]. apply draw_Some in Hi as (Ha & Hb & _).
        exists a, b. done.
  - intros Hnone. unfold collect_picks. rewrite omap_none.
    + destruct movies as [|a [|b rest]]; cbn in Hlen; try lia.
      exists a, b, rest. done.
    + intros i Hi%elem_of_seq. apply Hnone. lia.
  - intros (i0 & Hi0 & q0 & Hq0) Hfin.
    assert (Hne : collect_picks movies rnd <> []).
    { intros Hnil.
      assert (Hin : q0 ∈ collect_picks movies rnd)
        by (apply elem_of_collect_picks; eauto).
      rewrite Hnil in Hin. by apply elem_of_nil in Hin. }
    assert (Hcons : consistent_on pick_compare (collect_picks movies rnd)).
    { apply pick_compare_consistent. intros p. by apply collect_picks_not_nan. }
    destruct (array_sort_head pick_compare _ Hne Hcons)
      as (pre & best & post & rest & Hsplit & Hsort & Hmin & Hpre).
    destruct (omap_split _ _ _ _ _ Hsplit) as (l1 & i & l2 & Hseq & Hl1 & Hi & _).
    apply seq_split in Hseq as [-> Hlt].
    destruct best as [[a b] d].
    destruct (draw_Some _ _ _ _ _ _ Hi) as (_ & _ & Hid & Hd).
    exists i, a, b, d. split; [done|]. split; [done|]. split; [done|].
    split; [done|]. split.
    + rewrite Hsort. destruct (collect_picks movies rnd); [done | reflexivity].
    + split.
      * intros j q Hj Hq.
        change d with (pick_diff (a, b, d)). rewrite <- sorts_before_pick.
        apply Hmin, elem_of_collect_picks. eauto.
      * intros j q Hj Hq.
        change d with (pick_diff (a, b, d)). rewrite <- sorts_before_pick.
        apply Hpre. rewrite <- Hl1.
        apply list_elem_of_omap. exists j. split; [|done].
        apply elem_of_seq. lia.
Qed.

(** C9, on a draw: four films with the elos 1600, 1200, 1200 and 1500.
    The draws are (C, C), skipped; (B, D), difference 300; (D, A),
    difference 100; (A, C), difference 400; (A, D), difference 100; the
    rest (A, A), skipped.  The pair selected is (D, A), the first of the
    two draws of difference 100. *)
Lemma pickPair_selection_on_a_draw :
  let movies :=
    parseRows
      [[("Title", "A"); ("Year", "2001"); ("Rating", "4.5")];
       [("Title", "B"); ("Year", "2002"); ("Rating", "2.5")];
       [("Title", "C"); ("Year", "2003"); ("Rating", "")];
       [("Title", "D"); ("Year", "2004"); ("Rating", "4")]] in
  let rnd : Random :=
    fun i => nth i [0.5; 0.5; 0.25; 0.75; 0.75; 0.125; 0.125; 0.5; 0; 0.875]%float
               0%float in
  (fun p => (id (fst p), id (snd p))) <$> pickPair movies rnd
  = Some ("D|2004", "A|2001")
  /\ pickPair (take 1 movies) rnd = None
  /\ exists i a b d,
      (i < sampleSize movies)%nat
      /\ nth_draw movies rnd i = Some (a, b, d)
      /\ id a <> id b
      /\ d = Math_abs (elo a - elo b)%float
      /\ pickPair movies rnd = Some (a, b)
      /\ (forall j q, (j < sampleSize movies)%nat ->
            nth_draw movies rnd j = Some q -> (pick_diff q <? d)%float = false)
      /\ (forall j q, (j < i)%nat ->
            nth_draw movies rnd j = Some q -> (d <? pick_diff q)%float = true).
Proof.
  intros movies rnd. split; [vm_compute; reflexivity|]. split.
  - apply (proj1 (pickPair_selection (take 1 movies) rnd)). vm_compute. lia.
  - apply (proj2 (pickPair_selection movies rnd)).
    + vm_compute. lia.
    + exists 1%nat. split; [vm_compute; lia|]. vm_compute. eauto.
    + repeat constructor.
Defined.

(** C9 (the claim as stated fails): the ratings Infinity of two rows
    are stored as infinite elos, and the recorded difference of these two
    items is NaN.  The comparator [x[2] - y[2]] returns NaN whenever one
    side is NaN, which the sort reads as equal.  In the first stream the
    retained draws are (A, B) of difference 200, (P, Q) of difference NaN
    and (A, C) of difference 100: every comparison between neighbours
    involves the NaN, the picks stay in draw order, and the pair selected
    is (A, B) although the later draw (A, C) has the smaller difference.
    In the second stream the retained draws are (P, Q) and (A, C): the
    single comparison returns NaN, and the pair selected is (P, Q), whose
    recorded difference is not a number, with the draw of difference 100
    behind it. *)
Lemma pickPair_not_minimal_with_infinite_elos :
  let batch : list Row :=
    [[("Title", "P"); ("Year", "2001"); ("Rating", "Infinity")];
     [("Title", "Q"); ("Year", "2002"); ("Rating", "Infinity")];
     [("Title", "A"); ("Year", "2003"); ("Rating", "2.5")];
     [("Title", "B"); ("Year", "2004"); ("Rating", "3.5")];
     [("Title", "C"); ("Year", "2005"); ("Rating", "3")]] in
  let movies := movies (run sample_pow [ImportComplete batch false (fun _ => 0%float)]) in
  let rnd1 : Random :=
    fun i => nth i [0.5; 0.75; 0; 0.25; 0.5; 0.875]%float 0%float in
  let rnd2 : Random :=
    fun i => nth i [0; 0.25; 0.5; 0.875]%float 0%float in
  let view_pick (p : Pick) := (id (fst (fst p)), id (snd (fst p)), snd p) in
  let view_pair (p : Item * Item) := (id (fst p), id (snd p)) in
  (fun m => (id m, elo m)) <$> movies
  = [("P|2001", infinity); ("Q|2002", infinity); ("A|2003", 1200%float);
     ("B|2004", 1400%float); ("C|2005", 1300%float)]
  /\ view_pick <$> collect_picks movies rnd1
     = [("A|2003", "B|2004", 200%float); ("P|2001", "Q|2002", nan);
        ("A|2003", "C|2005", 100%float)]
  /\ view_pair <$> pickPair movies rnd1 = Some ("A|2003", "B|2004")
  /\ (fun q => (pick_diff q <? 200)%float) <$> collect_picks movies rnd1
     = [false; false; true]
  /\ view_pick <$> collect_picks movies rnd2
     = [("P|2001", "Q|2002", nan); ("A|2003", "C|2005", 100%float)]
  /\ view_pair <$> pickPair movies rnd2 = Some ("P|2001", "Q|2002")
  /\ (fun q => (PrimFloat.is_nan (pick_diff q), PrimFloat.is_finite (pick_diff q)))
       <$> collect_picks movies rnd2
     = [(true, false); (false, true)].
Proof. cbn zeta. repeat split; vm_compute; reflexivity. Qed.

(** * Further properties of the code *)

(** ** The sort as a whole *)

Section SortSpec.

Context {A : Type}.
Variable comparefn : A -> A -> number.

Lemma sort_insert_perm (x : A) (l : list A) :
  sort_insert comparefn x l ≡ₚ x :: l.
Proof.
  induction l as [|y l IH]; cbn [sort_insert]; [done|].
  destruct (sorts_after comparefn x y); [|done].
  rewrite IH. apply perm_swap.
Qed.

Lemma array_sort_perm (l : list A) : array_sort comparefn l ≡ₚ l.
Proof.
  induction l as [|x l IH]; cbn [array_sort]; [done|].
  by rewrite sort_insert_perm, IH.
Qed.

Lemma consistent_on_subset (l k : list A) :
  (forall x, x ∈ k -> x ∈ l) ->
  consistent_on comparefn l -> consistent_on comparefn k.
Proof. intros Hsub Hc x y z Hx Hy Hz. apply Hc; by apply Hsub. Qed.

(** In a consistent comparator a pair is not sorted both ways. *)
Lemma consistent_asym (l : list A) (x y : A) :
  consistent_on comparefn l -> x ∈ l -> y ∈ l ->
  sorts_before comparefn x y = true -> sorts_before comparefn y x = false.
Proof.
  intros Hc Hx Hy Hxy.
  destruct (Hc x y x Hx Hy Hx) as (_ & Hirr & Htr & _).
  destruct (sorts_before comparefn y x) eqn:Hyx; [|done].
  rewrite <- Hirr. symmetry. by apply Htr.
Qed.

Lemma sort_insert_sorted (x : A) (l : list A) :
  consistent_on comparefn (x :: l) ->
  StronglySorted (fun a b => sorts_before comparefn b a = false) l ->
  StronglySorted (fun a b => sorts_before comparefn b a = false)
    (sort_insert comparefn x l).
Proof.
  induction l as [|y l IH]; intros Hc Hs; cbn [sort_insert].
  - repeat constructor.
  - apply StronglySorted_inv in Hs as [Hs Hy].
    assert (Hx' : x ∈ x :: y :: l) by by left.
    assert (Hy' : y ∈ x :: y :: l) by (right; by left).
    destruct (Hc x y x Hx' Hy' Hx') as (Hanti & _).
    destruct (sorts_after comparefn x y) eqn:Hab.
    + constructor.
      * apply IH; [|done]. eapply consistent_on_subset; [|exact Hc].
        intros a [->|Ha]%elem_of_cons; [by left | right; by right].
      * apply Forall_forall. intros a [->|Ha]%elem_of_sort_insert.
        -- eapply consistent_asym; [exact Hc|done..|by rewrite <- Hanti].
        -- by apply (proj1 (Forall_forall _ _) Hy).
    + constructor; [by constructor|].
      apply Forall_cons. split; [by rewrite <- Hanti|].
      apply Forall_forall. intros a Ha.
      assert (Ha' : a ∈ x :: y :: l) by (right; by right).
      destruct (Hc a y x Ha' Hy' Hx') as (_ & _ & _ & Hneg).
      apply Hneg; [by apply (proj1 (Forall_forall _ _) Hy) | by rewrite <- Hanti].
Qed.

(** The sorted array is in order: no element sorts before an earlier one. *)
Lemma array_sort_sorted (l : list A) :
  consistent_on comparefn l ->
  StronglySorted (fun a b => sorts_before comparefn b a = false)
    (array_sort comparefn l).
Proof.
  induction l as [|x l IH]; intros Hc; cbn [array_sort]; [constructor|].
  apply sort_insert_sorted.
  - eapply consistent_on_subset; [|exact Hc].
    intros a [->|Ha]%elem_of_cons; [by left|].
    right. by apply (elem_of_array_sort comparefn).
  - apply IH. by eapply consistent_on_cons.
Qed.

Lemma StronglySorted_lookup_lt (R : A -> A -> Prop) (l : list A) (i j : nat) (x y : A) :
  StronglySorted R l -> (i < j)%nat ->
  l !! i = Some x -> l !! j = Some y -> R x y.
Proof.
  intros Hs. revert i j. induction Hs as [|a l Hs IH Ha]; intros i j Hij Hi Hj.
  - by rewrite lookup_nil in Hi.
  - destruct j as [|j]; [lia|]. cbn in Hj. destruct i as [|i]; cbn in Hi.
    + injection Hi as ->. apply (proj1 (Forall_forall _ _) Ha).
      by eapply list_elem_of_lookup_2.
    + eapply IH; [|done..]. lia.
Qed.

(** The sort is stable: the elements that compare equal to [z] keep their
    order. *)
Lemma sort_insert_stable (z x : A) (l : list A) :
  consistent_on comparefn (z :: x :: l) ->
  filter (fun y => sorts_before comparefn z y = false
                   /\ sorts_before comparefn y z = false)
         (sort_insert comparefn x l)
  = filter (fun y => sorts_before comparefn z y = false
                     /\ sorts_before comparefn y z = false) (x :: l).
Proof.
  induction l as [|y l IH]; intros Hc; cbn [sort_insert]; [done|].
  assert (Hz : z ∈ z :: x :: y :: l) by by left.
  assert (Hx : x ∈ z :: x :: y :: l) by (right; by left).
  assert (Hy : y ∈ z :: x :: y :: l) by (right; right; by left).
  destruct (sorts_after comparefn x y) eqn:Hab; [|done].
  rewrite (filter_cons _ y), IH.
  - rewrite !(filter_cons _ x), !(filter_cons _ y).
    destruct (decide _) as [[_ Hyz]|]; [|done].
    destruct (decide _) as [[Hzx _]|]; [|done].
    destruct (Hc x y x Hx Hy Hx) as (Hanti & _).
    destruct (Hc y z x Hy Hz Hx) as (_ & _ & _ & Hneg).
    rewrite Hanti, (Hneg Hyz Hzx) in Hab. discriminate Hab.
  - eapply consistent_on_subset; [|exact Hc].
    intros a [->|[->|Ha]%elem_of_cons]%elem_of_cons;
      [by left | right; by left | right; right; by right].
Qed.

Lemma array_sort_stable (z : A) (l : list A) :
  consistent_on comparefn (z :: l) ->
  filter (fun y => sorts_before comparefn z y = false
                   /\ sorts_before comparefn y z = false)
         (array_sort comparefn l)
  = filter (fun y => sorts_before comparefn z y = false
                     /\ sorts_before comparefn y z = false) l.
Proof.
  induction l as [|x l IH]; intros Hc; cbn [array_sort]; [done|].
  rewrite sort_insert_stable.
  - rewrite !(filter_cons _ x), IH; [done|].
    eapply consistent_on_subset; [|exact Hc].
    intros a [->|Ha]%elem_of_cons; [by left | right; by right].
  - eapply consistent_on_subset; [|exact Hc].
    intros a [->|[->|Ha]%elem_of_cons]%elem_of_cons;
      [by left | right; by left |].
    right; right. by apply (elem_of_array_sort comparefn).
Qed.

End SortSpec.

(** ** Rankings *)

Lemma ranking_sorts_before (a b : Item) :
  sorts_before (fun a b => (elo b - elo a)%float) a b = (elo b <? elo a)%float.
Proof. apply sub_ltb_zero. Qed.

Lemma ranking_sorts_after (a b : Item) :
  sorts_after (fun a b => (elo b - elo a)%float) a b = (elo a <? elo b)%float.
Proof. apply zero_ltb_sub. Qed.

Lemma ranking_consistent (movies : list Item) :
  Forall (fun m => is_nan (elo m) = false) movies ->
  consistent_on (fun a b => (elo b - elo a)%float) movies.
Proof.
  intros Hnan x y z Hx Hy Hz. rewrite Forall_forall in Hnan.
  unfold consistent_at. rewrite ranking_sorts_after, !ranking_sorts_before.
  split; [reflexivity|]. split; [apply ltb_irrefl|]. split.
  - intros H1 H2. by eapply ltb_trans.
  - intros H1 H2. eapply ltb_neg_trans; [|exact H2|exact H1]. by apply Hnan.
Qed.

(** X1: the order of the rankings table and of the export.  When no elo
    is [NaN], the ranking is a rearrangement of the collection in which no
    item has a lower elo than a later one, and the items that rank alike
    (neither elo below the other) stand in the order the collection has
    them. *)
Theorem ranking_sorted_stable (movies : list Item) :
  Forall (fun m => is_nan (elo m) = false) movies ->
  ranking movies ≡ₚ movies
  /\ (forall i j x y, (i < j)%nat ->
        ranking movies !! i = Some x -> ranking movies !! j = Some y ->
        (elo x <? elo y)%float = false)
  /\ (forall z, z ∈ movies ->
        filter (same_rank z) (ranking movies) = filter (same_rank z) movies).
Proof.
  intros Hnan. split; [apply array_sort_perm|]. split.
  - intros i j x y Hij Hi Hj.
    pose proof (array_sort_sorted _ _ (ranking_consistent movies Hnan)) as Hs.
    pose proof (StronglySorted_lookup_lt _ _ _ _ _ _ Hs Hij Hi Hj) as H.
    cbn beta in H. by rewrite ranking_sorts_before in H.
  - intros z Hz.
    assert (Hc : consistent_on (fun a b => (elo b - elo a)%float) (z :: movies)).
    { eapply consistent_on_subset; [|exact (ranking_consistent movies Hnan)].
      by intros a [->|Ha]%elem_of_cons. }
    pose proof (array_sort_stable _ z movies Hc) as H.
    unfold ranking.
    rewrite (list_filter_iff (same_rank z)
               (fun y => sorts_before (fun a b => (elo b - elo a)%float) z y = false
                         /\ sorts_before (fun a b => (elo b - elo a)%float) y z = false)
               (array_sort _ movies)).
    + rewrite H. apply list_filter_iff. intros m.
      unfold same_rank. rewrite !ranking_sorts_before. tauto.
    + intros m. unfold same_rank. rewrite !ranking_sorts_before. tauto.
Qed.

(** X1, on a collection: elos 1600, 1200, 1200 and 1700 rank as D, A, B,
    C, the two items at 1200 in the collection's order. *)
Lemma ranking_sorted_stable_on_a_collection :
  let movies :=
    parseRows
      [[("Title", "A"); ("Year", "2001"); ("Rating", "4.5")];
       [("Title", "B"); ("Year", "2002"); ("Rating", "2.5")];
       [("Title", "C"); ("Year", "2003"); ("Rating", "")];
       [("Title", "D"); ("Year", "2004"); ("Rating", "5")]] in
  ids (ranking movies) = ["D|2004"; "A|2001"; "B|2002"; "C|2003"]
  /\ ranking movies ≡ₚ movies.
Proof.
  intros movies. split; [vm_compute; reflexivity|].
  apply (ranking_sorted_stable movies). repeat constructor.
Defined.

(** ** Cells of the export *)

Lemma length_append (a b : string) :
  String.length (a ++ b) = (String.length a + String.length b)%nat.
Proof.
  induction a as [|c a IH]; [reflexivity|].
  rewrite append_cons. cbn [String.length]. by rewrite IH.
Qed.

Lemma length_double_quotes (s : string) :
  (String.length s <= String.length (double_quotes s))%nat.
Proof.
  induction s as [|c s IH]; cbn [double_quotes String.length]; [lia|].
  destruct (Ascii.eqb c dquote); cbn [String.length]; lia.
Qed.

Lemma includes_head (c : ascii) (s : string) : includes c (String c s) = true.
Proof. cbn [includes]. by rewrite Ascii.eqb_refl. Qed.

(** Doubling the quotes and closing the cell loses nothing. *)
Lemma double_quotes_closed_inj (s t : string) :
  double_quotes s ++ String dquote "" = double_quotes t ++ String dquote "" ->
  s = t.
Proof.
  revert t. induction s as [|c s IH]; intros [|d t]; cbn [double_quotes].
  - done.
  - rewrite append_nil.
    destruct (Ascii.eqb_spec d dquote) as [->|Hd]; rewrite !append_cons;
      intros H; injection H; intros; congruence.
  - rewrite append_nil.
    destruct (Ascii.eqb_spec c dquote) as [->|Hc]; rewrite !append_cons;
      intros H; injection H; intros; congruence.
  - destruct (Ascii.eqb_spec c dquote) as [->|Hc],
      (Ascii.eqb_spec d dquote) as [->|Hd]; rewrite !append_cons;
      intros H; injection H; intros; subst; try congruence;
      f_equal; by apply IH.
Qed.

(** X2: [csvEscapeCell] loses nothing on strings: two strings with the
    same cell are the same string. *)
Theorem csvEscapeCell_string_inj (digits_of : number -> string) (s t : string) :
  csvEscapeCell digits_of (JsString s) = csvEscapeCell digits_of (JsString t) ->
  s = t.
Proof.
  cbn [csvEscapeCell String_of]. unfold escape_string.
  destruct (needs_quotes s) eqn:Hs, (needs_quotes t) eqn:Ht.
  - intros [= H]. by apply double_quotes_closed_inj.
  - intros <-. unfold needs_quotes in Ht.
    by rewrite (includes_head dquote), orb_true_r in Ht.
  - intros ->. unfold needs_quotes in Hs.
    by rewrite (includes_head dquote), orb_true_r in Hs.
  - done.
Qed.

(** X2, on a cell: the cell of a title with a comma and a quote. *)
Lemma csvEscapeCell_string_inj_on_a_title :
  let host : number -> string := fun _ => "" in
  let s := String "A" (String dquote ", B") in
  csvEscapeCell host (JsString s)
  = String dquote
      (String "A" (String dquote (String dquote (", B" ++ String dquote ""))))
  /\ s = s.
Proof.
  intros host s. split; [vm_compute; reflexivity|].
  apply (csvEscapeCell_string_inj host s s). reflexivity.
Defined.

(** X3: a string cell is emitted as it is exactly when it holds no
    comma, no quote and no line feed; otherwise the cell is longer than
    the string by the two enclosing quotes at least. *)
Theorem csvEscapeCell_verbatim (digits_of : number -> string) (s : string) :
  (csvEscapeCell digits_of (JsString s) = s <-> needs_quotes s = false)
  /\ (needs_quotes s = true ->
      (String.length s + 2
       <= String.length (csvEscapeCell digits_of (JsString s)))%nat).
Proof.
  cbn [csvEscapeCell String_of]. unfold escape_string.
  assert (Hlen : (String.length s + 2
                  <= String.length
                       (String dquote (double_quotes s ++ String dquote "")))%nat).
  { cbn [String.length]. rewrite length_append. cbn [String.length].
    pose proof (length_double_quotes s). lia. }
  destruct (needs_quotes s); split; try done.
  split; [|done]. intros H. rewrite H in Hlen. lia.
Qed.

(** X3, on a cell: a title with a comma is enclosed in quotes. *)
Lemma csvEscapeCell_verbatim_on_a_title :
  let host : number -> string := fun _ => "" in
  csvEscapeCell host (JsString "A, the film")
  = String dquote ("A, the film" ++ String dquote "")
  /\ (String.length "A, the film" + 2
      <= String.length (csvEscapeCell host (JsString "A, the film")))%nat.
Proof.
  intros host. split; [vm_compute; reflexivity|].
  apply (csvEscapeCell_verbatim host). vm_compute. reflexivity.
Defined.

(** ** Export *)

(** X4: the export returns at once exactly for the empty collection;
    otherwise the text it hands to the download is the header line
    followed by one line per item of the collection, each item once, in
    the order of the rankings, whatever the elos are: the lines are the
    records' escaped cells joined by commas, and the text is the lines
    joined by line feeds. *)
Theorem export_lists_every_item (digits_of : number -> string)
    (movies : list Item) :
  let line (r : list JsValue) :=
    String.concat "," (csvEscapeCell digits_of <$> r) in
  line export_header = "Title,Year,Rating,Elo,Played,Wins,Losses"
  /\ (exportCsv digits_of movies = None <-> movies = [])
  /\ exists records,
      records = export_row <$> ranking movies
      /\ export_rows movies = export_header :: records
      /\ records ≡ₚ export_row <$> movies
      /\ length records = length movies
      /\ exportCsv digits_of movies
         = match movies with
           | [] => None
           | _ :: _ =>
               Some (String.concat (String newline "")
                       (line export_header :: (line <$> records)))
           end.
Proof.
  cbn zeta. split; [reflexivity|]. split.
  - destruct movies; cbn [exportCsv]; split; intros; done.
  - exists (export_row <$> ranking movies). split; [done|]. split; [done|].
    pose proof (array_sort_perm (fun a b => (elo b - elo a)%float) movies) as Hp.
    fold (ranking movies) in Hp. split; [by rewrite Hp|].
    split; [by rewrite length_fmap, Hp|].
    destruct movies; reflexivity.
Qed.

(** X4, on a collection: two films exported in the order of their elos,
    with a host that prints every Number that is not an integer as N. *)
Lemma export_lists_every_item_on_a_collection :
  let host : number -> string := fun _ => "N" in
  let movies :=
    parseRows
      [[("Title", "A, the film"); ("Year", "2001"); ("Rating", "2.5")];
       [("Title", "B"); ("Year", "2002"); ("Rating", "4.5")]] in
  exportCsv host movies
  = Some ("Title,Year,Rating,Elo,Played,Wins,Losses" ++ String newline ""
          ++ "B,2002,N,1600,0,0,0" ++ String newline ""
          ++ String dquote ("A, the film" ++ String dquote "")
          ++ ",2001,N,1200,0,0,0").
Proof. cbn zeta. vm_compute. reflexivity. Qed.

(** ** The history log *)

Section HistoryFacts.

Variable pow_approx : number -> number -> number.

Lemma resetAll_history c rnd s :
  history (resetAll c rnd s) = if c then [] else history s.
Proof. unfold resetAll. destruct c; [by rewrite movies_effect_history | done]. Qed.

Lemma handleChoice_history w l now rnd s :
  history (handleChoice pow_approx w l now rnd s) = history s
  \/ exists a b,
      history (handleChoice pow_approx w l now rnd s)
      = {| time := now; winner := id a; loser := id b;
           prevA := elo a; prevB := elo b;
           newA := fst (updateElo pow_approx (elo a) (elo b) 1 None);
           newB := snd (updateElo pow_approx (elo a) (elo b) 1 None) |}
        :: history s.
Proof.
  destruct (List.find (fun m => bool_decide (id m = w)) (movies s)) as [a|] eqn:Ha;
    [|left; by rewrite handleChoice_absent by auto].
  destruct (List.find (fun m => bool_decide (id m = l)) (movies s)) as [b|] eqn:Hb;
    [|left; by rewrite handleChoice_absent by auto].
  right. exists a, b.
  by destruct (handleChoice_found pow_approx w l now rnd s a b Ha Hb) as [_ ->].
Qed.

Lemma step_history_suffix (s : Store) (e : Event) :
  keeps_log e ->
  history s `suffix_of` history (step pow_approx s e)
  /\ (length (history (step pow_approx s e)) <= S (length (history s)))%nat.
Proof.
  intros He. destruct e as [rows merge rnd|err|w l now rnd|c rnd]; cbn [step].
  - rewrite importRatingsCsv_history. split; [done | lia].
  - cbn. split; [done | lia].
  - destruct (handleChoice_history w l now rnd s) as [->|(a & b & ->)].
    + split; [done | lia].
    + split; [by apply suffix_cons_r | cbn; lia].
  - rewrite resetAll_history. destruct c; [done|]. split; [done | lia].
Qed.

Lemma foldl_history_suffix (events : list Event) (s : Store) :
  Forall keeps_log events ->
  history s `suffix_of` history (foldl (step pow_approx) s events)
  /\ (length (history (foldl (step pow_approx) s events))
      <= length (history s) + length events)%nat.
Proof.
  revert s. induction events as [|e events IH]; intros s Hev; cbn [foldl].
  - split; [done | lia].
  - apply Forall_cons_1 in Hev as [He Hev].
    destruct (step_history_suffix s e He) as [H1 H2].
    destruct (IH (step pow_approx s e) Hev) as [H3 H4].
    split; [by etrans | cbn [length]; lia].
Qed.

Lemma step_history_entries (s : Store) (e : Event) :
  Forall (fun h => (newA h, newB h)
                   = updateElo pow_approx (prevA h) (prevB h) 1 None) (history s) ->
  Forall (fun h => (newA h, newB h)
                   = updateElo pow_approx (prevA h) (prevB h) 1 None)
    (history (step pow_approx s e)).
Proof.
  intros Hs. destruct e as [rows merge rnd|err|w l now rnd|c rnd]; cbn [step].
  - by rewrite importRatingsCsv_history.
  - exact Hs.
  - destruct (handleChoice_history w l now rnd s) as [->|(a & b & ->)]; [done|].
    apply Forall_cons. split; [|done]. cbn [newA newB prevA prevB].
    symmetry. apply surjective_pairing.
  - rewrite resetAll_history. destruct c; [constructor | done].
Qed.

End HistoryFacts.

(** X5: the history only grows at its head.  Over events that hold no
    confirmed reset, the log from before is the tail of the log after, and
    each event adds one entry at most. *)
Theorem history_append_only (pow_approx : number -> number -> number)
    (before after : list Event) :
  Forall keeps_log after ->
  history (run pow_approx before)
    `suffix_of` history (run pow_approx (before ++ after))
  /\ (length (history (run pow_approx (before ++ after)))
      <= length (history (run pow_approx before)) + length after)%nat.
Proof.
  intros Hev. unfold run. rewrite foldl_app. by apply foldl_history_suffix.
Qed.

(** X5, on a run: after an import and one comparison, a merge import and
    a second comparison put one more entry in front of the first one. *)
Lemma history_append_only_on_a_run :
  let batch : list Row :=
    [[("Title", "A"); ("Year", "2001"); ("Rating", "4.5")];
     [("Title", "B"); ("Year", "2002"); ("Rating", "2.5")]] in
  let rnd : Random := fun _ => 0%float in
  let before := [ImportComplete batch false rnd; Choice "A|2001" "B|2002" "t1" rnd] in
  let after := [ImportComplete batch true rnd; Choice "B|2002" "A|2001" "t2" rnd] in
  map time (history (run sample_pow (before ++ after))) = ["t2"; "t1"]
  /\ history (run sample_pow before)
       `suffix_of` history (run sample_pow (before ++ after)).
Proof.
  intros batch rnd before after. split; [vm_compute; reflexivity|].
  apply (history_append_only sample_pow before after).
  repeat constructor.
Defined.

(** X6: in every reachable state each history entry records an update of
    the rating engine: its [newA] and [newB] are [updateElo] of its
    [prevA] and [prevB] with score 1 and the default [k]. *)
Theorem history_entries_are_updates (pow_approx : number -> number -> number)
    (s : Store) :
  reachable pow_approx s ->
  Forall (fun h => (newA h, newB h)
                   = updateElo pow_approx (prevA h) (prevB h) 1 None) (history s).
Proof.
  intros Hs. induction Hs as [|s e _ IH]; [constructor|].
  by apply step_history_entries.
Qed.

(** X6, on a run: the entry of A (1600) beating B (1200). *)
Lemma history_entries_are_updates_on_a_run :
  let batch : list Row :=
    [[("Title", "A"); ("Year", "2001"); ("Rating", "4.5")];
     [("Title", "B"); ("Year", "2002"); ("Rating", "2.5")]] in
  let rnd : Random := fun _ => 0%float in
  let s := run sample_pow
             [ImportComplete batch false rnd; Choice "A|2001" "B|2002" "t1" rnd] in
  map (fun h => (prevA h, prevB h, newA h, newB h)) (history s)
  = [(1600, 1200, 1603, 1197)%float]
  /\ Forall (fun h => (newA h, newB h)
                      = updateElo sample_pow (prevA h) (prevB h) 1 None)
       (history s).
Proof.
  intros batch rnd s. split; [vm_compute; reflexivity|].
  apply (history_entries_are_updates sample_pow), reachable_run.
Defined.

(** ** Reset *)

Lemma filter_all {A} (P : A -> Prop) `{!forall x, Decision (P x)} (l : list A) :
  (forall x, x ∈ l -> P x) -> filter P l = l.
Proof.
  induction l as [|x l IH]; intros Hall; [done|].
  rewrite filter_cons_True by (apply Hall; by left).
  f_equal. apply IH. intros y Hy. apply Hall. by right.
Qed.

Lemma import_movies_into_empty (merge : bool) (parsed : list Item) :
  import_movies merge parsed [] = parsed.
Proof.
  destruct merge; [|done]. rewrite import_movies_merge. cbn [app].
  apply filter_all. intros p _ Hp. by apply elem_of_nil in Hp.
Qed.

(** X7: a confirmed reset empties the collection and the history, a
    declined one leaves the store as it is; right after a confirmed reset
    a merge import gives the same collection as a fresh import, the parsed
    items with nothing dropped for a stored id. *)
Theorem reset_then_import (rows : list Row) (merge : bool)
    (rnd rnd' : Random) (s : Store) :
  movies (resetAll true rnd s) = []
  /\ history (resetAll true rnd s) = []
  /\ resetAll false rnd s = s
  /\ movies (importRatingsCsv rows merge rnd' (resetAll true rnd s))
     = parseRows rows.
Proof.
  rewrite importRatingsCsv_movies, resetAll_movies, resetAll_history.
  by rewrite import_movies_into_empty.
Qed.

(** ** The pair on display *)

Lemma find_id_None (k : string) (l : list Item) :
  k ∉ ids l -> List.find (fun m => bool_decide (id m = k)) l = None.
Proof.
  intros Hk. destruct (List.find _ l) as [a|] eqn:Ha; [|done].
  destruct (find_id_Some _ _ _ Ha) as [Hin <-].
  destruct Hk. by apply list_elem_of_fmap_2.
Qed.

Lemma length_omap_le {A B} (f : A -> option B) (l : list A) :
  (length (omap f l) <= length l)%nat.
Proof.
  induction l as [|x l IH]; cbn; [lia|]. destruct (f x); cbn; lia.
Qed.

(** What [pickPair] returns are two items of the collection; they have
    distinct ids unless they are the first two items taken when no draw
    was retained. *)
Lemma pickPair_Some (movies : list Item) (rnd : Random) (a b : Item) :
  pickPair movies rnd = Some (a, b) ->
  a ∈ movies /\ b ∈ movies
  /\ (id a <> id b \/ exists rest, movies = a :: b :: rest).
Proof.
  unfold pickPair. destruct (length movies <? 2)%nat; [done|]. cbn zeta.
  destruct (collect_picks movies rnd) as [|p ps] eqn:Hp.
  - destruct movies as [|x [|y rest]]; cbn; try done.
    intros [= -> ->]. split; [by left|]. split; [right; by left|].
    right. by exists rest.
  - destruct (array_sort pick_compare (p :: ps)) as [|best rest] eqn:Hs; [done|].
    intros [= Hbest].
    assert (Hin : best ∈ collect_picks movies rnd).
    { rewrite Hp. apply (elem_of_array_sort pick_compare). rewrite Hs. by left. }
    apply elem_of_collect_picks in Hin as (i & _ & Hi).
    destruct best as [[a' b'] d]. cbn in Hbest. injection Hbest as -> ->.
    apply draw_Some in Hi as (Ha & Hb & Hid & _). tauto.
Qed.

Lemma pickPair_is_Some (movies : list Item) (rnd : Random) :
  (2 <= length movies)%nat -> is_Some (pickPair movies rnd).
Proof.
  intros Hlen. unfold pickPair. rewrite (proj2 (Nat.ltb_ge _ _) Hlen). cbn zeta.
  destruct (collect_picks movies rnd) as [|p ps] eqn:Hp.
  - destruct movies as [|x [|y rest]]; cbn in Hlen; try lia. by eexists.
  - destruct (array_sort pick_compare (p :: ps)) as [|best rest] eqn:Hs;
      [|by eexists].
    assert (Hin : p ∈ array_sort pick_compare (p :: ps))
      by (apply elem_of_array_sort; by left).
    rewrite Hs in Hin. by apply elem_of_nil in Hin.
Qed.

(** X8: in a collection whose ids are pairwise distinct, the two items
    [pickPair] selects have distinct ids. *)
Theorem pickPair_distinct (movies : list Item) (rnd : Random) (a b : Item) :
  NoDup (ids movies) ->
  pickPair movies rnd = Some (a, b) ->
  id a <> id b /\ a ∈ movies /\ b ∈ movies.
Proof.
  intros Hnd Hp. destruct (pickPair_Some _ _ _ _ Hp) as (Ha & Hb & [Hid|[rest ->]]);
    [done|].
  split; [|done]. cbn in Hnd. apply NoDup_cons_1_1 in Hnd.
  intros Heq. apply Hnd. rewrite Heq. by left.
Qed.

(** X8, on a collection of two: every draw is skipped or retained, and
    the pair has two ids. *)
Lemma pickPair_distinct_on_two :
  let movies :=
    parseRows
      [[("Title", "A"); ("Year", "2001"); ("Rating", "4.5")];
       [("Title", "B"); ("Year", "2002"); ("Rating", "2.5")]] in
  let rnd : Random := fun _ => 0%float in
  exists a b, pickPair movies rnd = Some (a, b) /\ id a <> id b.
Proof.
  intros movies rnd.
  destruct (pickPair movies rnd) as [[a b]|] eqn:Hp; [|vm_compute in Hp; discriminate Hp].
  exists a, b. split; [done|].
  apply (pickPair_distinct movies rnd a b); [|exact Hp].
  apply (bool_decide_unpack _). vm_compute. exact I.
Defined.

(** X9: every pick recorded by the sampling loop is a pair of items of
    the collection with distinct ids and the distance of their elos, and
    the loop records at most [min(200, 2 * length)] picks. *)
Theorem collect_picks_sound (movies : list Item) (rnd : Random) :
  Forall (fun p : Pick =>
            fst (fst p) ∈ movies /\ snd (fst p) ∈ movies
            /\ id (fst (fst p)) <> id (snd (fst p))
            /\ pick_diff p = Math_abs (elo (fst (fst p)) - elo (snd (fst p)))%float)
    (collect_picks movies rnd)
  /\ (length (collect_picks movies rnd) <= 200)%nat
  /\ (length (collect_picks movies rnd) <= 2 * length movies)%nat.
Proof.
  split.
  - apply Forall_forall. intros [[a b] d] (i & _ & Hi)%elem_of_collect_picks.
    by apply draw_Some in Hi.
  - pose proof (length_omap_le (nth_draw movies rnd) (seq 0 (sampleSize movies))) as H.
    rewrite length_seq in H. fold (collect_picks movies rnd) in H.
    unfold sampleSize in H. lia.
Qed.

Lemma movies_effect_shown (rnd : Random) (s : Store) (x y : Item) :
  left_ s = Some x -> right_ s = Some y -> movies_effect rnd s = s.
Proof. intros Hl Hr. unfold movies_effect. by rewrite Hl, Hr. Qed.

Lemma movies_effect_paired (rnd : Random) (s : Store) :
  is_Some (left_ (movies_effect rnd s)) <-> is_Some (right_ (movies_effect rnd s)).
Proof.
  unfold movies_effect.
  destruct (left_ s) as [x|] eqn:Hl, (right_ s) as [y|] eqn:Hr;
    try (destruct (pickPair (movies s) rnd) as [[a b]|]; cbn;
         rewrite <- ?not_eq_None_Some; split; intros; done).
  rewrite Hl, Hr. split; eauto.
Qed.

Section DisplayFacts.

Variable pow_approx : number -> number -> number.

(** X10: after a resolved comparison in a collection of two items or
    more, the pair put on display is the one [pickPair] selects in the
    collection as it was before the update: the two items shown are items
    of the old collection, so a just-compared item is shown with the elo
    and the counters it had before. *)
Theorem handleChoice_shows_old_items (w l now : string) (rnd : Random)
    (s : Store) (a b : Item) :
  List.find (fun m => bool_decide (id m = w)) (movies s) = Some a ->
  List.find (fun m => bool_decide (id m = l)) (movies s) = Some b ->
  (2 <= length (movies s))%nat ->
  exists x y,
    pickPair (movies s) rnd = Some (x, y)
    /\ left_ (handleChoice pow_approx w l now rnd s) = Some x
    /\ right_ (handleChoice pow_approx w l now rnd s) = Some y
    /\ x ∈ movies s /\ y ∈ movies s.
Proof.
  intros Ha Hb Hlen.
  destruct (pickPair_is_Some (movies s) rnd Hlen) as [[x y] Hp].
  exists x, y. split; [done|].
  destruct (pickPair_Some _ _ _ _ Hp) as (Hx & Hy & _).
  unfold handleChoice. rewrite Ha, Hb, Hp.
  destruct (updateElo pow_approx (elo a) (elo b) 1 None) as [nA nB].
  rewrite (movies_effect_shown _ _ x y) by done. done.
Qed.

(** X11: an import does not change a pair that is on display, whether or
    not its items are in the new collection; and when one of the two ids
    on display is not in the collection, a click on either card leaves the
    store as it is, display included. *)
Theorem import_keeps_shown_pair (rows : list Row) (merge : bool)
    (rnd : Random) (s : Store) (x y : Item) :
  left_ s = Some x -> right_ s = Some y ->
  let s' := importRatingsCsv rows merge rnd s in
  left_ s' = Some x /\ right_ s' = Some y
  /\ (id x ∉ ids (movies s') \/ id y ∉ ids (movies s') ->
      forall i now rnd', clickCard pow_approx i now rnd' s' = s').
Proof.
  intros Hl Hr s'.
  assert (Hs' : left_ s' = Some x /\ right_ s' = Some y).
  { unfold s', importRatingsCsv. by rewrite (movies_effect_shown _ _ x y). }
  destruct Hs' as [Hl' Hr']. split; [done|]. split; [done|].
  intros Habs i now rnd'. unfold clickCard.
  destruct (length (movies s') <? 2)%nat; [done|]. cbn zeta.
  destruct i as [|i]; rewrite Hl', Hr'; apply handleChoice_absent;
    destruct Habs as [H|H]; auto using find_id_None.
Qed.

(** X12: in every reachable state the two cards are both empty or both
    filled. *)
Theorem display_paired (s : Store) :
  reachable pow_approx s -> (is_Some (left_ s) <-> is_Some (right_ s)).
Proof.
  intros Hs. induction Hs as [|s e _ IH].
  - cbn. rewrite <- !not_eq_None_Some. tauto.
  - destruct e as [rows merge rnd|err|w l now rnd|c rnd]; cbn [step].
    + apply movies_effect_paired.
    + exact IH.
    + unfold handleChoice.
      destruct (List.find _ (movies s)) as [a|]; [|exact IH].
      destruct (List.find _ (movies s)) as [b|]; [|exact IH].
      destruct (updateElo pow_approx (elo a) (elo b) 1 None) as [nA nB].
      apply movies_effect_paired.
    + unfold resetAll. destruct c; [apply movies_effect_paired | exact IH].
Qed.

(** X13: an import into a store that shows no pair puts a pair on
    display as soon as the new collection has two items: two items of the
    new collection, with distinct ids when the ids of the collection are
    pairwise distinct. *)
Theorem import_shows_a_pair (rows : list Row) (merge : bool) (rnd : Random)
    (s : Store) :
  left_ s = None \/ right_ s = None ->
  let s' := importRatingsCsv rows merge rnd s in
  (2 <= length (movies s'))%nat ->
  exists x y,
    left_ s' = Some x /\ right_ s' = Some y
    /\ x ∈ movies s' /\ y ∈ movies s'
    /\ (NoDup (ids (movies s')) -> id x <> id y).
Proof.
  intros Hnone s' Hlen.
  assert (Hm : movies s' = import_movies merge (parseRows rows) (movies s))
    by apply importRatingsCsv_movies.
  rewrite Hm in *.
  destruct (pickPair_is_Some _ rnd Hlen) as [[x y] Hp].
  destruct (pickPair_Some _ _ _ _ Hp) as (Hx & Hy & Hid).
  exists x, y.
  assert (Hs : left_ s' = Some x /\ right_ s' = Some y).
  { unfold s', importRatingsCsv, movies_effect. cbn [left_ right_ movies].
    destruct Hnone as [-> | ->]; [|destruct (left_ s)];
      cbn [set_pair left_ right_ movies]; by rewrite Hp. }
  destruct Hs as [-> ->]. repeat split; try done.
  intros Hnd. destruct Hid as [Hid|[rest Hrest]]; [done|].
  rewrite Hrest in Hnd. cbn in Hnd. apply NoDup_cons_1_1 in Hnd.
  intros Heq. apply Hnd. rewrite Heq. by left.
Qed.

End DisplayFacts.

(** X10, on a run: A (1600) beats B (1200); the collection then holds
    1603 and 1197 while the cards show A and B with 1600 and 1200. *)
Lemma handleChoice_shows_old_items_on_a_run :
  let batch : list Row :=
    [[("Title", "A"); ("Year", "2001"); ("Rating", "4.5")];
     [("Title", "B"); ("Year", "2002"); ("Rating", "2.5")]] in
  let rnd : Random := fun _ => 0%float in
  let s := run sample_pow [ImportComplete batch false rnd] in
  let s' := handleChoice sample_pow "A|2001" "B|2002" "t1" rnd s in
  map elo (movies s') = [1603; 1197]%float
  /\ (elo <$> left_ s', elo <$> right_ s') = (Some 1600%float, Some 1200%float)
  /\ exists x y,
      pickPair (movies s) rnd = Some (x, y)
      /\ left_ s' = Some x /\ right_ s' = Some y
      /\ x ∈ movies s /\ y ∈ movies s.
Proof.
  intros batch rnd s s'. split; [vm_compute; reflexivity|].
  split; [vm_compute; reflexivity|].
  destruct (List.find (fun m => bool_decide (id m = "A|2001")) (movies s))
    as [a|] eqn:Ha; [|vm_compute in Ha; discriminate Ha].
  destruct (List.find (fun m => bool_decide (id m = "B|2002")) (movies s))
    as [b|] eqn:Hb; [|vm_compute in Hb; discriminate Hb].
  apply (handleChoice_shows_old_items sample_pow _ _ _ _ _ a b Ha Hb).
  vm_compute. lia.
Defined.

(** X11, on a run: with A and B on display, a fresh import of C and D
    leaves A and B on display, and a click on a card changes nothing. *)
Lemma import_keeps_shown_pair_on_a_run :
  let batch1 : list Row :=
    [[("Title", "A"); ("Year", "2001"); ("Rating", "4.5")];
     [("Title", "B"); ("Year", "2002"); ("Rating", "2.5")]] in
  let batch2 : list Row :=
    [[("Title", "C"); ("Year", "2003"); ("Rating", "3")];
     [("Title", "D"); ("Year", "2004"); ("Rating", "4")]] in
  let rnd : Random := fun _ => 0%float in
  let s := run sample_pow [ImportComplete batch1 false rnd] in
  let s' := importRatingsCsv batch2 false rnd s in
  ids (movies s') = ["C|2003"; "D|2004"]
  /\ (id <$> left_ s', id <$> right_ s') = (Some "A|2001", Some "B|2002")
  /\ clickCard sample_pow 0 "t1" rnd s' = s'
  /\ clickCard sample_pow 1 "t1" rnd s' = s'.
Proof.
  intros batch1 batch2 rnd s s'. split; [vm_compute; reflexivity|].
  split; [vm_compute; reflexivity|].
  destruct (left_ s) as [x|] eqn:Hl; [|vm_compute in Hl; discriminate Hl].
  destruct (right_ s) as [y|] eqn:Hr; [|vm_compute in Hr; discriminate Hr].
  destruct (import_keeps_shown_pair sample_pow batch2 false rnd s x y Hl Hr)
    as (_ & _ & Hclick).
  assert (Habs : id x ∉ ids (movies (importRatingsCsv batch2 false rnd s))
                 \/ id y ∉ ids (movies (importRatingsCsv batch2 false rnd s))).
  { left. vm_compute in Hl. injection Hl as <-.
    apply (bool_decide_unpack _). vm_compute. exact I. }
  split; apply (Hclick Habs).
Defined.

(** X12, on a run. *)
Lemma display_paired_on_a_run :
  let batch : list Row :=
    [[("Title", "A"); ("Year", "2001"); ("Rating", "4.5")];
     [("Title", "B"); ("Year", "2002"); ("Rating", "2.5")]] in
  let rnd : Random := fun _ => 0%float in
  let s := run sample_pow
             [ImportComplete batch false rnd; Choice "A|2001" "B|2002" "t1" rnd;
              Reset true rnd] in
  (id <$> left_ s, id <$> right_ s) = (Some "A|2001", Some "B|2002")
  /\ (is_Some (left_ s) <-> is_Some (right_ s)).
Proof.
  intros batch rnd s. split; [vm_compute; reflexivity|].
  apply (display_paired sample_pow), reachable_run.
Defined.

(** X13, on a run: the first import into the initial store. *)
Lemma import_shows_a_pair_on_a_run :
  let batch : list Row :=
    [[("Title", "A"); ("Year", "2001"); ("Rating", "4.5")];
     [("Title", "B"); ("Year", "2002"); ("Rating", "2.5")]] in
  let rnd : Random := fun _ => 0%float in
  let s' := importRatingsCsv batch true rnd initial in
  exists x y,
    left_ s' = Some x /\ right_ s' = Some y
    /\ x ∈ movies s' /\ y ∈ movies s'
    /\ (NoDup (ids (movies s')) -> id x <> id y).
Proof.
  intros batch rnd.
  apply (import_shows_a_pair batch true rnd initial); [by left|].
  vm_compute. lia.
Defined.

(** ** Missing data in rows *)

Lemma includes_append_r (c : ascii) (a b : string) :
  includes c b = true -> includes c (a ++ b) = true.
Proof.
  intros Hb. induction a as [|d a IH]; [done|].
  rewrite append_cons. cbn [includes]. by rewrite IH, orb_true_r.
Qed.

Lemma or_string_nonempty (v : option string) (d : string) :
  d <> "" -> or_string v d <> "".
Proof.
  intros Hd. unfold or_string. destruct v as [s|]; [|done].
  by destruct (String.eqb_spec s "").
Qed.

(** X14: an import never fails on missing data.  The resolved title of a
    row is never the empty string, the id of every imported item holds
    the separator bar, and a row without fields becomes the item titled
    Unknown without rating, seeded at 1200. *)
Theorem parseRows_missing_data (rows : list Row) :
  Forall (fun m => includes "|" (id m) = true) (parseRows rows)
  /\ length (parseRows rows) = length rows
  /\ (forall tKey r, row_title tKey r <> "")
  /\ (forall tKey rKey yKey,
        let m := parseRow tKey rKey yKey [] in
        title m = "Unknown" /\ id m = "Unknown|" /\ year m = ""
        /\ rating m = None /\ elo m = 1200%float).
Proof.
  split; [|split; [|split]].
  - unfold parseRows. apply Forall_fmap, Forall_forall. intros r _. cbn.
    rewrite trim_app_bar. apply includes_append_r. reflexivity.
  - unfold parseRows. apply length_fmap.
  - intros tKey r. by apply or_string_nonempty.
  - intros [tKey|] [rKey|] [yKey|]; vm_compute; repeat split; reflexivity.
Qed.

(** ** The history table *)

(** X15: the history table shows the 200 most recent entries at most, in
    the order of the log; the label of an id that is in no item of the
    collection is the id itself, and the label of an id that is in the
    collection is the title of its first item when this title is not
    empty. *)
Theorem history_view_rows (toLocaleString : string -> string) (s : Store) :
  length (history_view toLocaleString s) = Nat.min 200 (length (history s))
  /\ (forall i, (i < 200)%nat ->
        history_view toLocaleString s !! i
        = history_row toLocaleString (movies s) <$> history s !! i)
  /\ (forall k, k ∉ ids (movies s) -> label_of (movies s) k = k)
  /\ (forall k m,
        List.find (fun m => bool_decide (id m = k)) (movies s) = Some m ->
        title m <> "" -> label_of (movies s) k = title m).
Proof.
  unfold history_view. split; [by rewrite length_fmap, length_take|].
  split; [|split].
  - intros i Hi. by rewrite list_lookup_fmap, lookup_take_lt.
  - intros k Hk. unfold label_of. by rewrite find_id_None.
  - intros k m Hm Ht. unfold label_of. rewrite Hm. cbn.
    by destruct (String.eqb_spec (title m) "").
Qed.

(** X15, on a run: after A beat B, a fresh import replaces the
    collection; the entry of the history table then shows the two ids. *)
Lemma history_view_rows_on_a_run :
  let batch1 : list Row :=
    [[("Title", "A"); ("Year", "2001"); ("Rating", "4.5")];
     [("Title", "B"); ("Year", "2002"); ("Rating", "2.5")]] in
  let batch2 : list Row :=
    [[("Title", "C"); ("Year", "2003"); ("Rating", "3")];
     [("Title", "D"); ("Year", "2004"); ("Rating", "4")]] in
  let rnd : Random := fun _ => 0%float in
  let ts : string -> string := fun t => t in
  let s := run sample_pow
             [ImportComplete batch1 false rnd; Choice "A|2001" "B|2002" "t1" rnd;
              ImportComplete batch2 false rnd] in
  map (fun r => (row_winner r, row_loser r, row_deltaA r, row_deltaB r))
      (history_view ts s)
  = [("A|2001", "B|2002", 3%float, (-3)%float)]
  /\ label_of (movies s) "A|2001" = "A|2001".
Proof.
  intros batch1 batch2 rnd ts s. split; [vm_compute; reflexivity|].
  apply (history_view_rows ts s). apply (bool_decide_unpack _). vm_compute. exact I.
Defined.

(** ** Totals of the counters *)

Lemma total_cons (counter : Item -> nat) (m : Item) (l : list Item) :
  total counter (m :: l) = (counter m + total counter l)%nat.
Proof. reflexivity. Qed.

Lemma total_app (counter : Item -> nat) (l k : list Item) :
  total counter (l ++ k) = (total counter l + total counter k)%nat.
Proof. apply sum_list_with_app. Qed.

Lemma total_zero (counter : Item -> nat) (l : list Item) :
  Forall (fun m => counter m = 0%nat) l -> total counter l = 0%nat.
Proof.
  induction 1 as [|m l Hm _ IH]; [done|]. rewrite total_cons, Hm, IH. done.
Qed.

(** In a collection with pairwise distinct ids one item at most is the
    winner and one at most the loser. *)
Lemma total_apply_result (a b : Item) (nA nB : number) (l : list Item) :
  NoDup (ids l) -> id a <> id b ->
  total wins (apply_result a b nA nB <$> l)
  = (total wins l + (if decide (id a ∈ ids l) then 1 else 0))%nat
  /\ total losses (apply_result a b nA nB <$> l)
     = (total losses l + (if decide (id b ∈ ids l) then 1 else 0))%nat.
Proof.
  intros Hnd Hab. induction l as [|m l IH].
  - cbn. split; reflexivity.
  - cbn [ids fmap list_fmap] in Hnd. apply NoDup_cons in Hnd as [Hm Hnd].
    destruct (IH Hnd) as [IHw IHl]. fold (ids l) in Hm.
    rewrite fmap_cons, !total_cons, IHw, IHl.
    unfold ids. rewrite fmap_cons. fold (ids l).
    assert (Ha : id a ∈ id m :: ids l <-> id m = id a \/ id a ∈ ids l)
      by (rewrite elem_of_cons; split; intros [?|?]; auto).
    assert (Hb : id b ∈ id m :: ids l <-> id m = id b \/ id b ∈ ids l)
      by (rewrite elem_of_cons; split; intros [?|?]; auto).
    unfold apply_result.
    destruct (decide (id m = id a)) as [Hma|Hma];
      [|destruct (decide (id m = id b)) as [Hmb|Hmb]];
      cbn [wins losses record_win record_loss];
      destruct (decide (id a ∈ id m :: ids l)) as [Ha1|Ha1],
               (decide (id a ∈ ids l)) as [Ha2|Ha2],
               (decide (id b ∈ id m :: ids l)) as [Hb1|Hb1],
               (decide (id b ∈ ids l)) as [Hb2|Hb2];
      rewrite ?Ha, ?Hb in *;
      first [split; lia | exfalso; intuition congruence].
Qed.

Section Totals.

Variable pow_approx : number -> number -> number.

Lemma step_totals (s : Store) (e : Event) :
  two_sided e -> NoDup (ids (movies s)) ->
  total wins (movies s) = total losses (movies s) ->
  total wins (movies (step pow_approx s e))
  = total losses (movies (step pow_approx s e)).
Proof.
  intros He Hnd Hs. destruct e as [rows merge rnd|err|w l now rnd|c rnd]; cbn [step].
  - rewrite importRatingsCsv_movies.
    assert (Hzero : forall k, (forall x, x ∈ k -> x ∈ parseRows rows) ->
              total wins k = 0%nat /\ total losses k = 0%nat).
    { intros k Hk. pose proof (parseRows_counters rows) as Hc.
      rewrite Forall_forall in Hc.
      split; apply total_zero, Forall_forall; intros m Hm; by apply Hc, Hk. }
    destruct merge;
      [|change (import_movies false (parseRows rows) (movies s))
          with (parseRows rows)].
    + rewrite import_movies_merge, !total_app.
      destruct (Hzero (filter (fun p => id p ∉ ids (movies s)) (parseRows rows)))
        as [-> ->]; [|lia].
      by intros x [_ Hx]%list_elem_of_filter.
    + by destruct (Hzero (parseRows rows)) as [-> ->].
  - exact Hs.
  - cbn in He.
    destruct (List.find (fun m => bool_decide (id m = w)) (movies s)) as [a|] eqn:Ha;
      [|by rewrite handleChoice_absent by auto].
    destruct (List.find (fun m => bool_decide (id m = l)) (movies s)) as [b|] eqn:Hb;
      [|by rewrite handleChoice_absent by auto].
    destruct (handleChoice_found pow_approx w l now rnd s a b Ha Hb) as [-> _].
    destruct (find_id_Some _ _ _ Ha) as [Hina Hida].
    destruct (find_id_Some _ _ _ Hb) as [Hinb Hidb].
    destruct (total_apply_result a b
                (fst (updateElo pow_approx (elo a) (elo b) 1 None))
                (snd (updateElo pow_approx (elo a) (elo b) 1 None))
                (movies s) Hnd) as [-> ->]; [congruence|].
    rewrite !decide_True by by apply list_elem_of_fmap_2. lia.
  - rewrite resetAll_movies. destruct c; [done | exact Hs].
Qed.

Lemma two_sided_distinct_batch (e : Event) : two_sided e -> distinct_batch e.
Proof. by destruct e. Qed.

Lemma run_counters (events : list Event) :
  Forall counters_ok (movies (run pow_approx events)).
Proof.
  induction events as [|e events IH] using rev_ind; [constructor|].
  rewrite run_snoc. by apply step_counters.
Qed.

Lemma total_played (l : list Item) :
  Forall counters_ok l -> total played l = (total wins l + total losses l)%nat.
Proof.
  induction 1 as [|m l Hm _ IH]; [done|].
  rewrite !total_cons, IH. unfold counters_ok in Hm. lia.
Qed.

End Totals.

(** X16: every comparison has one winner and one loser.  Over events
    whose import batches have pairwise distinct ids and whose comparisons
    are between two different ids, the wins of the collection add up to
    as much as its losses, and the games played to twice as much. *)
Theorem wins_balance_losses (pow_approx : number -> number -> number)
    (events : list Event) :
  Forall two_sided events ->
  total wins (movies (run pow_approx events))
  = total losses (movies (run pow_approx events))
  /\ total played (movies (run pow_approx events))
     = (2 * total wins (movies (run pow_approx events)))%nat.
Proof.
  intros Hev.
  assert (H : total wins (movies (run pow_approx events))
              = total losses (movies (run pow_approx events))).
  { induction events as [|e events IH] using rev_ind; [done|].
    apply Forall_app in Hev as [Hev He]. apply Forall_cons_1 in He as [He _].
    rewrite run_snoc. apply step_totals; [done| |by apply IH].
    apply run_NoDup. eapply Forall_impl; [exact Hev|].
    apply two_sided_distinct_batch. }
  split; [exact H|].
  rewrite total_played by apply run_counters. lia.
Qed.

(** X16, on a run: three comparisons among three films. *)
Lemma wins_balance_losses_on_a_run :
  let batch : list Row :=
    [[("Title", "A"); ("Year", "2001"); ("Rating", "4.5")];
     [("Title", "B"); ("Year", "2002"); ("Rating", "2.5")];
     [("Title", "C"); ("Year", "2003"); ("Rating", "")]] in
  let rnd : Random := fun i => of_ratio (Z.of_nat (i * 7 mod 10)) 10 in
  let events :=
    [ImportComplete batch false rnd;
     Choice "A|2001" "B|2002" "t1" rnd;
     Choice "C|2003" "A|2001" "t2" rnd;
     Choice "C|2003" "B|2002" "t3" rnd] in
  (total played (movies (run sample_pow events)),
   total wins (movies (run sample_pow events)),
   total losses (movies (run sample_pow events))) = (6, 3, 3)%nat
  /\ total wins (movies (run sample_pow events))
     = total losses (movies (run sample_pow events)).
Proof.
  intros batch rnd events. split; [vm_compute; reflexivity|].
  apply (wins_balance_losses sample_pow events).
  repeat (apply Forall_cons; split); try apply Forall_nil_2; try done.
  apply (bool_decide_unpack _). vm_compute. exact I.
Defined.

(** ** The update between equal ratings *)

Lemma SFsub_diag (x : spec_float) :
  match x with S754_zero _ | S754_finite _ _ _ => True | _ => False end ->
  SFsub prec emax x x = S754_zero false.
Proof.
  destruct x as [s|s| |s m e]; try done; intros _.
  - by destruct s.
  - cbn [SFsub]. by rewrite Z.sub_diag.
Qed.

(** A finite number minus itself is [+0]. *)
Lemma sub_diag (x : number) : is_finite x = true -> (x - x)%float = 0%float.
Proof.
  intros Hx%is_finite_spec. apply FloatAxioms.Prim2SF_inj.
  rewrite FloatAxioms.sub_spec. unfold FloatAxioms.SF64sub.
  by rewrite SFsub_diag.
Qed.

(** X17: between two items of the same finite elo the expected score is
    one half on every host, so that with the default [k] the winner gets
    [round(elo + 16)] and the loser [round(elo - 16)]. *)
Theorem updateElo_equal_elos (pow_approx : number -> number -> number)
    (x : number) :
  is_finite x = true ->
  expectedScore pow_approx x x = 0.5%float
  /\ updateElo pow_approx x x 1 None
     = (Math_round (x + 16)%float, Math_round (x + -16)%float).
Proof.
  intros Hx. unfold updateElo, expectedScore. cbn [default].
  rewrite (sub_diag x Hx).
  assert (H : (1 / (1 + Math_pow pow_approx 10 (0 / 400)))%float = 0.5%float)
    by (vm_compute; reflexivity).
  rewrite H. split; [reflexivity|].
  assert (H1 : (32 * (1 - 0.5))%float = 16%float) by (vm_compute; reflexivity).
  assert (H2 : (32 * (1 - 1 - (1 - 0.5)))%float = (-16)%float)
    by (vm_compute; reflexivity).
  by rewrite H1, H2.
Qed.

(** X17, on two items at 1500. *)
Lemma updateElo_equal_elos_at_1500 :
  updateElo sample_pow 1500 1500 1 None = (1516%float, 1484%float).
Proof.
  destruct (updateElo_equal_elos sample_pow 1500 eq_refl) as [_ ->].
  vm_compute. reflexivity.
Defined.
